(** * The cache restorer of drone-cache ([cache/restorer.go])

    A shallow embedding of [restorer.Restore] and its helpers, and the
    properties of the restore orchestration: key resolution with fallback,
    prefix-based discovery, the fan-out of one goroutine per destination,
    the aggregation of their failures and the metadata artifact.

    Go strings are byte strings: [string] here.  A Go [error] value is a
    term of [error]; the [nil] error is [None].  An interface field that can
    be [nil] is an [option]. *)

From Stdlib Require Import Ascii String ZArith.
From stdpp Require Import base option list strings gmap.

Local Open Scope string_scope.
Local Open Scope list_scope.

#[local] Set Warnings "-register-all".

(** ** Errors *)

(** An error value made outside of package [cache], by a collaborator or
    by the operating system.  The restorer never looks into one; it only
    compares the error of [List] with the sentinel
    [common.ErrNotImplemented]. *)
Inductive external_error : Type :=
| ErrNotImplemented : external_error
| ErrOther (msg : string) : external_error.

(** The error values the restorer handles: an error of a collaborator; an
    error made by [fmt.Errorf], with its format and its operands, strings
    and errors, in order (the format tells which error is wrapped by [%w]);
    and a [*internal.MultiError] with the errors it holds. *)
Inductive error : Type :=
| External (e : external_error) : error
| Errorf (format : string) (operands : list (string + error)) : error
| ErrMulti (errs : list error) : error.

(** [err != common.ErrNotImplemented]: Go compares the two error values, so
    only the sentinel itself is equal to it. *)
Definition is_ErrNotImplemented (e : external_error) : bool :=
  match e with
  | ErrNotImplemented => true
  | ErrOther _ => false
  end.

(** What a Go call does: it returns a value or it panics. *)
Inductive go_result (A : Type) : Type :=
| Ret (a : A)
| Panic (msg : string).
Arguments Ret {A} a.
Arguments Panic {A} msg.

Definition nil_dereference : string :=
  "runtime error: invalid memory address or nil pointer dereference".

(** ** [strings] *)

Module strings.

(** [s[n:]] for [n <= len(s)]. *)
Fixpoint drop (n : nat) (s : string) : string :=
  match n, s with
  | O, _ => s
  | S n', String _ s' => drop n' s'
  | S _, EmptyString => EmptyString
  end.

Definition HasPrefix (s p : string) : bool := String.prefix p s.

Definition HasSuffix (s suffix : string) : bool :=
  (String.length suffix <=? String.length s)%nat
  && String.eqb (drop (String.length s - String.length suffix) s) suffix.

Definition TrimPrefix (s p : string) : string :=
  if HasPrefix s p then drop (String.length p) s else s.

(** [strings.Join(elems, sep)]. *)
Fixpoint Join (elems : list string) (sep : string) : string :=
  match elems with
  | [] => ""
  | [e] => e
  | e :: rest => e +:+ sep +:+ Join rest sep
  end.

End strings.

(** ** [path/filepath] *)

(** The lexical path functions of Go's standard library that the restorer
    calls, for a host given by its [runtime.GOOS].  Paths are taken without a
    Windows volume name (no drive letter, no UNC prefix) and, on Windows,
    without a colon: the paths of a cache have none. *)
Module filepath.

Definition windows (goos : string) : bool := String.eqb goos "windows".

Definition Separator (goos : string) : ascii :=
  if windows goos then "\"%char else "/"%char.

(** [os.IsPathSeparator]. *)
Definition IsPathSeparator (goos : string) (c : ascii) : bool :=
  Ascii.eqb c "/" || (windows goos && Ascii.eqb c "\").

(** The path name elements of [path]: the substrings between separators. *)
Fixpoint elements (goos : string) (path : string) : list string :=
  match path with
  | EmptyString => [""]
  | String c rest =>
      if IsPathSeparator goos c then "" :: elements goos rest
      else match elements goos rest with
           | e :: es => String c e :: es
           | [] => [String c ""]
           end
  end.

(** One path name element processed by [Clean]; [out] holds the elements
    kept so far, the last one first. *)
Definition clean_element (rooted : bool) (out : list string) (e : string)
  : list string :=
  if String.eqb e "" then out
  else if String.eqb e "." then out
  else if String.eqb e ".." then
    match out with
    | top :: below => if String.eqb top ".." then e :: out else below
    | [] => if rooted then [] else [e]
    end
  else e :: out.

Definition rooted (goos : string) (path : string) : bool :=
  match path with
  | String c _ => IsPathSeparator goos c
  | EmptyString => false
  end.

Definition Clean (goos : string) (path : string) : string :=
  let sep := String (Separator goos) "" in
  let out := foldl (clean_element (rooted goos path)) [] (elements goos path) in
  let cleaned :=
    (if rooted goos path then sep else "") +:+ strings.Join (rev out) sep in
  if String.eqb cleaned "" then "." else cleaned.

(** [Join]: the elements from the first non-empty one on, joined by the
    separator and cleaned. *)
Fixpoint Join (goos : string) (elem : list string) : string :=
  match elem with
  | [] => ""
  | e :: rest =>
      if String.eqb e "" then Join goos rest
      else Clean goos (strings.Join elem (String (Separator goos) ""))
  end.

Fixpoint replace_byte (old new : ascii) (path : string) : string :=
  match path with
  | EmptyString => EmptyString
  | String c rest =>
      String (if Ascii.eqb c old then new else c) (replace_byte old new rest)
  end.

Definition ToSlash (goos : string) (path : string) : string :=
  if Ascii.eqb (Separator goos) "/" then path
  else replace_byte (Separator goos) "/" path.

(** [path[:i+1]] for the index [i] of the last separator of [path]. *)
Fixpoint upto_last_separator (goos : string) (path : string) : string :=
  match path with
  | EmptyString => EmptyString
  | String c rest =>
      let p := upto_last_separator goos rest in
      if String.eqb p "" then
        (if IsPathSeparator goos c then String c "" else "")
      else String c p
  end.

Definition Dir (goos : string) (path : string) : string :=
  Clean goos (upto_last_separator goos path).

End filepath.

(** ** The collaborators *)

(** [key.Generator]: [Generate(parts...) (string, error)]. *)
Record Generator : Type := {
  Generate : list string -> string * option external_error
}.

(** Modelled from the spec: [common.FileEntry], declared in [storage/common],
    the RemoteEntry "(path, size, metadata) as reported by the store's listing
    operation".  The restorer reads [Path] only. *)
Record FileEntry : Type := {
  Path : string;
  Size : Z;
  LastModified : Z
}.

(** [storage.Storage].  [Get(p, w)] writes the object's bytes to [w] and
    returns an error or nil: [Get] gives the bytes written and that result. *)
Record Storage : Type := {
  List : string -> list FileEntry * option external_error;
  Get : string -> string * option external_error
}.

(** What the read end of an [io.Pipe] delivers to its reader: the bytes
    written to the write end, and then [io.EOF] ([None]) or the error the
    write end was closed with. *)
Record pipe_stream : Type := {
  stream_data : string;
  stream_closing : option error
}.

(** [archive.Archive]: [Extract(dst, r) (int64, error)]. *)
Record Archive : Type := {
  Extract : string -> pipe_stream -> Z * option error
}.

(** Modelled from the spec: [CacheMetadata], declared elsewhere in package
    [cache], "{cacheSize: human-readable byte count}". *)
Record CacheMetadata : Type := {
  CacheSize : string
}.

(** The local files the restorer itself writes: name to content. *)
Abbreviation files := (gmap string string).

(** The host the restorer runs on: [runtime.GOOS], and the library and
    operating-system calls of [restore] and [writeCacheMetadata].  The
    operating-system calls act on the local files and may fail. *)
Record Host : Type := {
  GOOS : string;
  humanize_Bytes : Z -> string;
  json_MarshalIndent : CacheMetadata -> string * option external_error;
  os_MkdirAll : string -> files -> files * option external_error;
  os_WriteFile : string -> string -> files -> files * option external_error
}.

(** ** The restorer *)

Definition PLUGIN_CACHE_INTEL_FILE_NAME : string := "plugin-cache-intel.json".

(** [type restorer struct]; the logger only receives messages and is left
    out.  The two generators are interface values that may be nil. *)
Record restorer : Type := {
  a : Archive;
  s : Storage;
  g : option Generator;
  fg : option Generator;
  namespace : string;
  failIfKeyNotPresent : bool;
  enableCacheKeySeparator : bool;
  backend : string;
  accountID : string
}.

Definition NewRestorer (s : Storage) (a : Archive) (g fg : option Generator)
    (namespace : string) (failIfKeyNotPresent enableCacheKeySeparator : bool)
    (backend accountID : string) : restorer :=
  {| a := a; s := s; g := g; fg := fg; namespace := namespace;
     failIfKeyNotPresent := failIfKeyNotPresent;
     enableCacheKeySeparator := enableCacheKeySeparator;
     backend := backend; accountID := accountID |}.

(** [restorer.generateKey].  [r.g.Generate] on a nil [r.g] panics; [r.fg] is
    tested against nil before it is called. *)
Definition generateKey (r : restorer) (parts : list string)
  : go_result (string * option external_error) :=
  match g r with
  | None => Panic nil_dereference
  | Some gen =>
      let '(key, err) := Generate gen parts in
      match err with
      | None => Ret (key, None)
      | Some _ =>
          match fg r with
          | Some fgen =>
              let '(key', err') := Generate fgen parts in
              match err' with
              | None => Ret (key', None)
              | Some _ => Ret ("", err')
              end
          | None => Ret ("", err)
          end
      end
  end.

Definition getSeparator (h : Host) : string :=
  if String.eqb (GOOS h) "windows" then "\" else "/".

(** [%+v] of a [CacheMetadata]. *)
Definition show_CacheMetadata (data : CacheMetadata) : string :=
  "{CacheSize:" +:+ CacheSize data +:+ "}".

(** [writeCacheMetadata]. *)
Definition writeCacheMetadata (h : Host) (data : CacheMetadata)
    (filename : string) (fs : files) : files * option error :=
  let '(b, err) := json_MarshalIndent h data in
  match err with
  | Some e =>
      (fs, Some (Errorf "failed with err %s to marshal output %+v"
                   [inr (External e); inl (show_CacheMetadata data)]))
  | None =>
      let dir := filepath.Dir (GOOS h) filename in
      let '(fs1, err1) := os_MkdirAll h dir fs in
      match err1 with
      | Some e =>
          (fs1, Some (Errorf
             "failed with err %s to create %s directory for cache metrics file"
             [inr (External e); inl dir]))
      | None =>
          let '(fs2, err2) := os_WriteFile h filename b fs1 in
          match err2 with
          | Some e =>
              (fs2, Some (Errorf
                 "failed to write cache metrics to cache metrics file %s"
                 [inl filename]))
          | None => (fs2, None)
          end
      end
  end.

(** [uint64(written)] for an [int64]. *)
Definition uint64 (n : Z) : Z := (n mod 2 ^ 64)%Z.

(** The download and the extraction of [restorer.restore], joined by the
    pipe.  The goroutine calls [r.s.Get(src, pw)] and closes the write end:
    with the wrapped error when [Get] failed, else, by the deferred close,
    with [io.EOF].  [r.a.Extract(dst, pr)] reads the other end, and what it
    returns is all [restore] uses: nothing waits for the goroutine of
    [Get], and what [Get] returns only closes the pipe. *)
Definition pipe_session (r : restorer) (src dst : string) : Z * option error :=
  let '(data, gerr) := Get (s r) src in
  let closing :=
    match gerr with
    | Some e =>
        Some (Errorf "get file from storage backend, pipe writer failed, %w"
                [inr (External e)])
    | None => None
    end in
  Extract (a r) dst {| stream_data := data; stream_closing := closing |}.

(** The error [restorer.restore] returns.  The deferred
    [internal.CloseWithErrCapturef] closes the read end, [PipeReader.Close]
    always returns nil, and [err] stays as it is. *)
Definition restore_error (r : restorer) (src dst : string) : option error :=
  match pipe_session r src dst with
  | (_, Some e) =>
      Some (Errorf
        "extract files from downloaded archive, pipe reader failed, %w"
        [inr e])
  | (_, None) => None
  end.

Definition metadata_of (h : Host) (written : Z) : CacheMetadata :=
  {| CacheSize := humanize_Bytes h (uint64 written) |}.

(** [restorer.restore]: the local files after it, and the error returned. *)
Definition restore (h : Host) (r : restorer) (src dst : string) (fs : files)
  : files * option error :=
  let '(written, err) := pipe_session r src dst in
  match err with
  | Some e =>
      (fs, Some (Errorf
         "extract files from downloaded archive, pipe reader failed, %w"
         [inr e]))
  | None =>
      let '(fs', _) :=
        writeCacheMetadata h (metadata_of h written)
          PLUGIN_CACHE_INTEL_FILE_NAME fs in
      (fs', None)
  end.

(** ** [internal.MultiError] *)

Module internal.

(** Modelled from the spec: [internal.MultiError], the ErrorAggregator,
    "an ordered collection of individual failures": [add(error)], and
    [err()] that "returns nil if empty, otherwise a composite error that
    can be inspected to recover each original failure in the order
    added".  Its mutex makes [Add] atomic. *)
Definition MultiError : Type := list error.

Definition Add (errs : MultiError) (err : error) : MultiError :=
  errs ++ [err].

Definition Err (errs : MultiError) : option error :=
  match errs with
  | [] => None
  | _ => Some (ErrMulti errs)
  end.

End internal.

(** ** What [Restore] does that can be observed *)

(** The calls on the collaborators and the steps of the goroutines, in the
    order they happen.  [task] is the index of the goroutine in the order
    of the [go] statements. *)
Inductive event : Type :=
| EvList (prefix : string)
| EvGo (task : nat) (src dst : string)
| EvGet (task : nat) (src : string)
| EvExtract (task : nat) (dst : string)
| EvWriteMetadata (task : nat) (data : CacheMetadata) (res : option error)
| EvAdd (task : nat) (err : error)
| EvDone (task : nat).

(** ** [Restore] up to the loop that starts the goroutines *)

(** Either [Restore] is over before any goroutine is started, or it reaches
    the loop with the cleaned namespace, the key and the destinations. *)
Inductive plan : Type :=
| EarlyExit (res : go_result (option error))
| FanOut (namespace key : string) (dsts : list string).

(** [filepath.ToSlash(filepath.Clean(r.namespace))]. *)
Definition cleaned_namespace (h : Host) (r : restorer) : string :=
  filepath.ToSlash (GOOS h) (filepath.Clean (GOOS h) (namespace r)).

(** The prefix passed to [r.s.List]. *)
Definition list_prefix (h : Host) (r : restorer) (namespace key : string)
  : string :=
  let prefix := filepath.Join (GOOS h) [namespace; key] in
  if negb (strings.HasSuffix prefix (getSeparator h))
     && enableCacheKeySeparator r
  then prefix +:+ getSeparator h
  else prefix.

(** The prefix trimmed from the path of a listed entry. *)
Definition trimmed_prefix (h : Host) (r : restorer) (prefix : string) : string :=
  let prefix :=
    if String.eqb (backend r) "harness"
    then accountID r +:+ "/intel/" +:+ prefix
    else prefix in
  if enableCacheKeySeparator r then prefix else prefix +:+ getSeparator h.

Definition discovered (h : Host) (r : restorer) (prefix : string)
    (e : FileEntry) : string :=
  strings.TrimPrefix (Path e) (trimmed_prefix h r prefix).

Definition Restore_plan (h : Host) (r : restorer) (dsts : list string)
  : list event * plan :=
  match generateKey r [] with
  | Panic msg => ([], EarlyExit (Panic msg))
  | Ret (_, Some err) =>
      ([], EarlyExit (Ret (Some
         (Errorf "generate key, %w" [inr (External err)]))))
  | Ret (key, None) =>
      let namespace := cleaned_namespace h r in
      match dsts with
      | [] =>
          let prefix := list_prefix h r namespace key in
          let '(entries, err) := List (s r) prefix in
          match err with
          | None =>
              if failIfKeyNotPresent r && (length entries =? 0)%nat
              then ([EvList prefix],
                    EarlyExit (Ret (Some
                      (Errorf "key %s does not exist" [inl prefix]))))
              else ([EvList prefix],
                    FanOut namespace key
                      (dsts ++ map (discovered h r prefix) entries))
          | Some e =>
              if is_ErrNotImplemented e
              then ([EvList prefix], FanOut namespace key dsts)
              else ([EvList prefix], EarlyExit (Ret (Some (External e))))
          end
      | _ :: _ => ([], FanOut namespace key dsts)
      end
  end.

(** ** The goroutines *)

(** The goroutines of a call run in any interleaving of their steps.  A
    goroutine takes two: the download and extraction, which touch nothing
    the goroutines share; then either [writeCacheMetadata], on the local
    files, or [errs.Add], under the mutex of [errs]; and with the second
    its [wg.Done]. *)

(** Where a goroutine [go func(src, dst)] stands: about to call
    [r.restore]; in [r.restore] after a successful [Extract], before
    [writeCacheMetadata]; back from [r.restore] with an error, before
    [errs.Add]; or after [wg.Done]. *)
Inductive position : Type :=
| Started
| Extracted (written : Z)
| Failed (err : error)
| Finished.

Record goroutine : Type := {
  g_src : string;
  g_dst : string;
  g_at : position
}.

Definition finished (t : goroutine) : bool :=
  match g_at t with
  | Finished => true
  | _ => false
  end.

(** The state of a [Restore] call in and after its loop: the destinations
    the loop has not reached, the goroutines started, [errs], the local
    files, and the events so far. *)
Record state : Type := {
  st_todo : list string;
  st_pool : list goroutine;
  st_errs : internal.MultiError;
  st_files : files;
  st_trace : list event
}.

(** What the Go scheduler runs next: the next iteration of the loop of
    [Restore], or the next step of a goroutine. *)
Inductive choice : Type :=
| Loop
| Run (task : nat).

Section FanOut.

Variables (h : Host) (r : restorer) (namespace key : string).

Definition source (dst : string) : string :=
  filepath.Join (GOOS h) [namespace; key; dst].

(** One iteration of [for _, dst := range dsts]. *)
Definition loop (st : state) : option state :=
  match st_todo st with
  | [] => None
  | dst :: rest =>
      let src := source dst in
      Some {| st_todo := rest;
              st_pool := st_pool st
                ++ [{| g_src := src; g_dst := dst; g_at := Started |}];
              st_errs := st_errs st;
              st_files := st_files st;
              st_trace := st_trace st
                ++ [EvGo (length (st_pool st)) src dst] |}
  end.

Definition move (t : goroutine) (p : position) : goroutine :=
  {| g_src := g_src t; g_dst := g_dst t; g_at := p |}.

(** The next step of goroutine [i]. *)
Definition step_task (i : nat) (st : state) : option state :=
  match st_pool st !! i with
  | None => None
  | Some t =>
      match g_at t with
      | Started =>
          let '(written, err) := pipe_session r (g_src t) (g_dst t) in
          let p :=
            match err with
            | Some e =>
                Failed (Errorf
                  "extract files from downloaded archive, pipe reader failed, %w"
                  [inr e])
            | None => Extracted written
            end in
          Some {| st_todo := st_todo st;
                  st_pool := <[i := move t p]> (st_pool st);
                  st_errs := st_errs st;
                  st_files := st_files st;
                  st_trace := st_trace st
                    ++ [EvGet i (g_src t); EvExtract i (g_dst t)] |}
      | Extracted written =>
          let data := metadata_of h written in
          let '(fs, res) :=
            writeCacheMetadata h data PLUGIN_CACHE_INTEL_FILE_NAME
              (st_files st) in
          Some {| st_todo := st_todo st;
                  st_pool := <[i := move t Finished]> (st_pool st);
                  st_errs := st_errs st;
                  st_files := fs;
                  st_trace := st_trace st
                    ++ [EvWriteMetadata i data res; EvDone i] |}
      | Failed err =>
          let err' :=
            Errorf "download from <%s> to <%s>, %w"
              [inl (g_src t); inl (g_dst t); inr err] in
          Some {| st_todo := st_todo st;
                  st_pool := <[i := move t Finished]> (st_pool st);
                  st_errs := internal.Add (st_errs st) err';
                  st_files := st_files st;
                  st_trace := st_trace st ++ [EvAdd i err'; EvDone i] |}
      | Finished => None
      end
  end.

Definition exec (c : choice) (st : state) : option state :=
  match c with
  | Loop => loop st
  | Run i => step_task i st
  end.

(** A schedule is the list of the scheduler's choices; a choice that
    cannot run (the loop is over, the goroutine is not started or has
    finished) leaves the state as it is. *)
Definition run (sched : list choice) (st : state) : state :=
  foldl (fun st c => default st (exec c st)) st sched.

(** [wg.Wait()] returns: the loop is over and every goroutine has called
    [wg.Done]. *)
Definition joined (st : state) : bool :=
  match st_todo st with
  | [] => forallb finished (st_pool st)
  | _ :: _ => false
  end.

End FanOut.

Definition init (dsts : list string) (fs : files) (evs : list event) : state :=
  {| st_todo := dsts; st_pool := []; st_errs := [];
     st_files := fs; st_trace := evs |}.

(** [Restore] after [wg.Wait()]. *)
Definition Restore_end (errs : internal.MultiError) : option error :=
  match internal.Err errs with
  | Some _ => Some (Errorf "restore failed, %w" [inr (ErrMulti errs)])
  | None => None
  end.

(** What a call of [Restore] leaves: what it returns (or that it
    panicked), the goroutines it started, the local files and the events. *)
Record outcome : Type := {
  result : go_result (option error);
  out_tasks : list goroutine;
  out_files : files;
  out_trace : list event
}.

(** [restorer.Restore] on a host [h], with the local files [fs], under the
    schedule [sched].  [None]: under [sched] the call has not returned, some
    goroutine has still to run. *)
Definition Restore (h : Host) (r : restorer) (dsts : list string) (fs : files)
    (sched : list choice) : option outcome :=
  match Restore_plan h r dsts with
  | (evs, EarlyExit res) =>
      Some {| result := res; out_tasks := [];
              out_files := fs; out_trace := evs |}
  | (evs, FanOut namespace key dsts') =>
      let st := run h r namespace key sched (init dsts' fs evs) in
      if joined st
      then Some {| result := Ret (Restore_end (st_errs st));
                   out_tasks := st_pool st;
                   out_files := st_files st;
                   out_trace := st_trace st |}
      else None
  end.

(** The schedule that runs each goroutine to its end as soon as it is
    started, and one that starts them all first. *)
Fixpoint one_by_one (first n : nat) : list choice :=
  match n with
  | O => []
  | S n' => Loop :: Run first :: Run first :: one_by_one (S first) n'
  end.

Definition all_at_once (n : nat) : list choice :=
  replicate n Loop ++ (Run <$> seq 0 n) ++ (Run <$> seq 0 n).

(** ** Collaborators to run the restorer on *)

Module Examples.

Definition fixed_key (k : string) : Generator :=
  {| Generate := fun _ => (k, None) |}.

Definition no_key (msg : string) : Generator :=
  {| Generate := fun _ => ("", Some (ErrOther msg)) |}.

(** A store of objects, path and content. *)
Definition object_named (p : string) (o : string * string) : bool :=
  String.eqb (fst o) p.

Definition entry_of (o : string * string) : FileEntry :=
  {| Path := fst o; Size := Z.of_nat (String.length (snd o));
     LastModified := 0 |}.

Definition get_object (objects : list (string * string)) (p : string)
  : string * option external_error :=
  match List.find (object_named p) objects with
  | Some o => (snd o, None)
  | None => ("", Some (ErrOther "object not found"))
  end.

(** A store that lists the objects whose path starts with the prefix. *)
Definition bucket (objects : list (string * string)) : Storage :=
  {| List := fun prefix =>
       (entry_of <$>
          List.filter (fun o => strings.HasPrefix (fst o) prefix) objects,
        None);
     Get := get_object objects |}.

(** A store that cannot list. *)
Definition unlisted (objects : list (string * string)) : Storage :=
  {| List := fun _ => ([], Some ErrNotImplemented);
     Get := get_object objects |}.


(** An archive of one byte per byte restored: it fails when the stream
    does, and else reports the bytes it has read. *)
Definition plain : Archive :=
  {| Extract := fun _ stream =>
       match stream_closing stream with
       | Some e => (0%Z, Some e)
       | None => (Z.of_nat (String.length (stream_data stream)), None)
       end |}.

(** [humanize.Bytes] below ten bytes: the number and [" B"]. *)
Definition small_bytes (n : Z) : string :=
  String (ascii_of_nat (48 + Z.to_nat n)) " B".

(** In place of [json.MarshalIndent]: the size under its name; it does
    not fail. *)
Definition render (data : CacheMetadata)
  : string * option external_error :=
  ("CacheSize: " +:+ CacheSize data, None).

(** Hosts whose operating-system calls do as asked, and one on which no
    file can be written. *)
Definition host (goos : string) : Host :=
  {| GOOS := goos;
     humanize_Bytes := small_bytes;
     json_MarshalIndent := render;
     os_MkdirAll := fun _ fs => (fs, None);
     os_WriteFile := fun name b fs => (<[name := b]> fs, None) |}.

Definition linux : Host := host "linux".
Definition windows : Host := host "windows".

Definition read_only : Host :=
  {| GOOS := "linux";
     humanize_Bytes := small_bytes;
     json_MarshalIndent := render;
     os_MkdirAll := fun _ fs => (fs, None);
     os_WriteFile := fun _ _ fs =>
       (fs, Some (ErrOther "read-only file system")) |}.

Definition objects : list (string * string) :=
  [("repo/k/a", "x"); ("repo/k/b", "yy")].

(** A restorer on [objects], with a primary generator and no fallback. *)
Definition restorer_on (s : Storage) : restorer :=
  NewRestorer s plain (Some (fixed_key "k")) None "repo" false true "" "".

End Examples.

(** * What the properties speak of *)

(** A call of [generateKey] that returns an error: an ordinary result. *)
Definition key_error (r : restorer) (parts : list string)
    (e : external_error) : Prop :=
  exists key, generateKey r parts = Ret (key, Some e).

Definition generator_fails (gen : Generator) (parts : list string) : Prop :=
  is_Some (snd (Generate gen parts)).

(** "Both generators fail or no primary generator is configured." *)
Definition both_fail_or_no_primary (r : restorer) (parts : list string) : Prop :=
  (exists gen fgen, g r = Some gen /\ fg r = Some fgen
     /\ generator_fails gen parts /\ generator_fails fgen parts)
  \/ g r = None.

(** The goroutine an event belongs to; [None] for an event of the
    goroutine that called [Restore]. *)
Definition task_of (ev : event) : option nat :=
  match ev with
  | EvList _ => None
  | EvGo i _ _ | EvGet i _ | EvExtract i _
  | EvWriteMetadata i _ _ | EvAdd i _ | EvDone i => Some i
  end.

Definition by_task (i : nat) (ev : event) : bool :=
  match task_of ev with
  | Some j => Nat.eqb j i
  | None => false
  end.

Definition by_caller (ev : event) : bool :=
  match task_of ev with
  | Some _ => false
  | None => true
  end.

(** The events of goroutine [i], in their order. *)
Definition events_of (i : nat) (tr : list event) : list event :=
  List.filter (by_task i) tr.

Definition caller_events (tr : list event) : list event :=
  List.filter by_caller tr.

(** The error goroutine [t] adds to [errs], if [r.restore] fails. *)
Definition failure (r : restorer) (t : goroutine) : option error :=
  match restore_error r (g_src t) (g_dst t) with
  | Some e =>
      Some (Errorf "download from <%s> to <%s>, %w"
              [inl (g_src t); inl (g_dst t); inr e])
  | None => None
  end.

Definition recorded (r : restorer) (t : goroutine) : option error :=
  if finished t then failure r t else None.

Definition position_ok (r : restorer) (t : goroutine) : Prop :=
  match g_at t with
  | Started | Finished => True
  | Extracted written => pipe_session r (g_src t) (g_dst t) = (written, None)
  | Failed e => restore_error r (g_src t) (g_dst t) = Some e
  end.

Definition session_events (i : nat) (t : goroutine) : list event :=
  [EvGo i (g_src t) (g_dst t); EvGet i (g_src t); EvExtract i (g_dst t)].

(** The events of goroutine [i] so far, by where it stands. *)
Definition task_trace (h : Host) (r : restorer) (i : nat) (t : goroutine)
    (evs : list event) : Prop :=
  match g_at t with
  | Started => evs = [EvGo i (g_src t) (g_dst t)]
  | Extracted _ | Failed _ => evs = session_events i t
  | Finished =>
      match pipe_session r (g_src t) (g_dst t) with
      | (written, None) =>
          exists res,
            evs = session_events i t
                  ++ [EvWriteMetadata i (metadata_of h written) res; EvDone i]
      | (_, Some _) =>
          exists e,
            failure r t = Some e
            /\ evs = session_events i t ++ [EvAdd i e; EvDone i]
      end
  end.

Section Invariant.

Variables (h : Host) (r : restorer) (namespace key : string).
Variables (dsts : list string) (evs : list event).

(** What holds of every state a schedule reaches from [init dsts fs evs]:
    the goroutines started and the destinations left are the destinations
    of the loop, in order; each goroutine has the source of its
    destination and stands where [r.restore] puts it; [errs] holds the
    failures of the goroutines that have finished, and nothing else; the
    events of the caller are those before the loop, and the events of
    each goroutine are those of its own steps. *)
Record invariant (st : state) : Prop := {
  inv_dsts : (g_dst <$> st_pool st) ++ st_todo st = dsts;
  inv_src :
    Forall (fun t => g_src t = source h namespace key (g_dst t)) (st_pool st);
  inv_at : Forall (position_ok r) (st_pool st);
  inv_errs : st_errs st ≡ₚ omap (recorded r) (st_pool st);
  inv_caller : caller_events (st_trace st) = evs;
  inv_tasks : forall i,
    match st_pool st !! i with
    | Some t => task_trace h r i t (events_of i (st_trace st))
    | None => events_of i (st_trace st) = []
    end
}.

End Invariant.

(** The steps a goroutine has still to take. *)
Definition steps_left (t : goroutine) : nat :=
  match g_at t with
  | Started => 2
  | Extracted _ | Failed _ => 1
  | Finished => 0
  end.

(** The steps left in a state: three for a destination the loop has not
    reached, to start its goroutine and to run it. *)
Definition weight (st : state) : nat :=
  3 * length (st_todo st) + sum_list_with steps_left (st_pool st).

(** The destinations of the loop of [Restore]; none when [Restore] is over
    before the loop. *)
Definition targets (h : Host) (r : restorer) (dsts : list string) : list string :=
  match snd (Restore_plan h r dsts) with
  | FanOut _ _ dsts' => dsts'
  | EarlyExit _ => []
  end.

(** [Restore] returns the error of its last [return fmt.Errorf], with the
    errors [es] in [errs]. *)
Definition restore_failed (o : outcome) (es : list error) : Prop :=
  result o = Ret (Some (Errorf "restore failed, %w" [inr (ErrMulti es)])).

(** [Restore] returns an error, any. *)
Definition returns_error (o : outcome) : Prop :=
  exists e, result o = Ret (Some e).

(** The download and extraction of a goroutine fail. *)
Definition destination_fails (r : restorer) (t : goroutine) : Prop :=
  is_Some (restore_error r (g_src t) (g_dst t)).

(** What [Restore] does after [r.s.List(prefix)] has returned. *)
Definition after_List (h : Host) (r : restorer) (key prefix : string) : plan :=
  match List (s r) prefix with
  | (entries, None) =>
      if failIfKeyNotPresent r && (length entries =? 0)%nat
      then EarlyExit (Ret (Some (Errorf "key %s does not exist" [inl prefix])))
      else FanOut (cleaned_namespace h r) key
             (discovered h r prefix <$> entries)
  | (_, Some e) =>
      if is_ErrNotImplemented e
      then FanOut (cleaned_namespace h r) key []
      else EarlyExit (Ret (Some (External e)))
  end.

(** The metadata an event writes, if it is a call of
    [writeCacheMetadata]. *)
Definition written_data (ev : event) : option CacheMetadata :=
  match ev with
  | EvWriteMetadata _ data _ => Some data
  | _ => None
  end.

(** The metadata written during a call, in order; and those written by
    goroutine [i]. *)
Definition metadata_writes (tr : list event) : list CacheMetadata :=
  omap written_data tr.

Definition metadata_written (i : nat) (tr : list event) : list CacheMetadata :=
  omap written_data (events_of i tr).

(** "Written at most once, and only when no failure was recorded." *)
Definition written_once_on_success (o : outcome) : Prop :=
  length (metadata_writes (out_trace o)) <= 1
  /\ (metadata_writes (out_trace o) <> [] -> result o = Ret None).


(** The byte [c] occurs in [s]. *)
Fixpoint has_byte (c : ascii) (s : string) : bool :=
  match s with
  | EmptyString => false
  | String c' rest => Ascii.eqb c' c || has_byte c rest
  end.




(** The byte [c] does not occur in [s]. *)
Definition without (c : ascii) (s : string) : Prop := has_byte c s = false.

(** The goroutine of the destination [dst], after its [wg.Done]. *)
Definition finished_task (h : Host) (namespace key dst : string) : goroutine :=
  {| g_src := filepath.Join (GOOS h) [namespace; key; dst];
     g_dst := dst; g_at := Finished |}.


(** The source of a call of [Get], the destination of a call of
    [Extract], the error of a call of [errs.Add]. *)
Definition fetched_source (ev : event) : option string :=
  match ev with
  | EvGet _ src => Some src
  | _ => None
  end.

Definition extracted_destination (ev : event) : option string :=
  match ev with
  | EvExtract _ dst => Some dst
  | _ => None
  end.

Definition added_error (ev : event) : option error :=
  match ev with
  | EvAdd _ err => Some err
  | _ => None
  end.

(** The goroutine has made its calls of [Get] and [Extract]. *)
Definition past_session (t : goroutine) : bool :=
  match g_at t with
  | Started => false
  | _ => true
  end.

(** The local files after the calls of [writeCacheMetadata] with the
    metadata [written], in order, from the files [fs]. *)
Definition after_writes (h : Host) (fs : files) (written : list CacheMetadata)
  : files :=
  foldl (fun fs data =>
           fst (writeCacheMetadata h data PLUGIN_CACHE_INTEL_FILE_NAME fs))
    fs written.

(** What the events account for, in every state a schedule reaches from
    the local files [fs]: the calls of [Get] and of [Extract] are those
    of the goroutines that have made them; [errs] holds the errors of
    the calls of [errs.Add], in their order; the local files are what the
    calls of [writeCacheMetadata] have made of [fs]. *)
Record ledger (h : Host) (fs : files) (st : state) : Prop := {
  led_gets :
    omap fetched_source (st_trace st)
    ≡ₚ omap (fun t => if past_session t then Some (g_src t) else None)
         (st_pool st);
  led_extracts :
    omap extracted_destination (st_trace st)
    ≡ₚ omap (fun t => if past_session t then Some (g_dst t) else None)
         (st_pool st);
  led_errs : st_errs st = omap added_error (st_trace st);
  led_files :
    st_files st = after_writes h fs (metadata_writes (st_trace st))
}.



(** A path name element that [Clean] keeps as it is, and a path made of
    such elements only. *)
Definition kept_element (e : string) : bool :=
  negb (String.eqb e "") && negb (String.eqb e ".")
  && negb (String.eqb e "..").

Definition plain (goos : string) (path : string) : bool :=
  forallb kept_element (filepath.elements goos path).

(** The last byte of a string. *)
Fixpoint last_byte (x : string) : option ascii :=
  match x with
  | EmptyString => None
  | String c rest =>
      match last_byte rest with
      | Some c' => Some c'
      | None => Some c
      end
  end.

(** Membership in a list that is written out: one case per element. *)
Ltac elem_cases H :=
  repeat (apply elem_of_cons in H as [H | H]);
  try (apply elem_of_nil in H; destruct H).

(** * Properties *)

(** ** Strings *)

Section StringFacts.

Lemma app_cons (c : ascii) (x y : string) :
  String c x +:+ y = String c (x +:+ y).
Proof. reflexivity. Qed.

Lemma app_nil (y : string) : "" +:+ y = y.
Proof. reflexivity. Qed.

Lemma app_empty_r (x : string) : x +:+ "" = x.
Proof. induction x; rewrite ?app_cons, ?app_nil; congruence. Qed.

Lemma app_assoc' (x y z : string) : (x +:+ y) +:+ z = x +:+ (y +:+ z).
Proof. induction x; rewrite ?app_cons, ?app_nil; congruence. Qed.

Lemma HasPrefix_spec (s p : string) :
  strings.HasPrefix s p = true <-> exists rest, s = p +:+ rest.
Proof.
  unfold strings.HasPrefix. revert s.
  induction p as [|c p IH]; intros s.
  - destruct s; simpl; (split; [intros _; by eexists | done]).
  - destruct s as [|c' s]; simpl.
    + split; [done | intros [rest ?]; discriminate].
    + setoid_rewrite app_cons.
      destruct (Ascii.ascii_dec c c') as [->|Hne].
      * rewrite IH. split; intros [rest Hrest]; exists rest; congruence.
      * split; [done | intros [rest Hrest]; congruence].
Qed.

Lemma drop_app (p rest : string) :
  strings.drop (String.length p) (p +:+ rest) = rest.
Proof. induction p; rewrite ?app_cons, ?app_nil; simpl; auto. Qed.

Lemma TrimPrefix_app (p rest : string) :
  strings.TrimPrefix (p +:+ rest) p = rest.
Proof.
  unfold strings.TrimPrefix.
  assert (strings.HasPrefix (p +:+ rest) p = true) as ->
    by (apply HasPrefix_spec; eauto).
  apply drop_app.
Qed.

Lemma app_eq_self (p rest : string) : p +:+ rest = p -> rest = "".
Proof.
  induction p; rewrite ?app_cons, ?app_nil; [done |].
  intros; apply IHp; congruence.
Qed.

(** Trimming leaves nothing exactly of the empty string and of the prefix
    itself. *)
Lemma TrimPrefix_empty (s p : string) :
  strings.TrimPrefix s p = "" <-> s = "" \/ s = p.
Proof.
  unfold strings.TrimPrefix.
  destruct (strings.HasPrefix s p) eqn:Hp.
  - apply HasPrefix_spec in Hp as [rest ->]. rewrite drop_app. split.
    + intros ->. right. apply app_empty_r.
    + intros [Hnil | Heq].
      * destruct p; [done | discriminate].
      * by apply app_eq_self in Heq.
  - split; [by left |]. intros [-> | ->]; [done |].
    assert (strings.HasPrefix p p = true) as Hrefl
      by (apply HasPrefix_spec; exists ""; by rewrite app_empty_r).
    congruence.
Qed.

End StringFacts.

(** ** Key resolution *)

(** C4: when the primary generator fails and a fallback is configured,
    [generateKey] returns what the fallback returns: its key and no error
    when it succeeds, whatever error the primary gave, and its error when
    it fails too. *)
Theorem generateKey_falls_back (r : restorer) (parts : list string)
    (gen fgen : Generator) :
  g r = Some gen ->
  generator_fails gen parts ->
  fg r = Some fgen ->
  (forall key, Generate fgen parts = (key, None) ->
     generateKey r parts = Ret (key, None))
  /\ (forall key e, Generate fgen parts = (key, Some e) ->
     generateKey r parts = Ret ("", Some e)).
Proof.
  intros Hg [e He] Hfg. unfold generateKey. rewrite Hg, Hfg.
  destruct (Generate gen parts) as [k err]. simpl in He. subst err.
  split; intros; by rewrite H.
Qed.

Lemma generateKey_falls_back_witness :
  generateKey
    (NewRestorer (Examples.bucket []) Examples.plain
       (Some (Examples.no_key "no commit")) (Some (Examples.fixed_key "k"))
       "repo" false true "" "") ["a"]
  = Ret ("k", None).
Proof.
  refine (proj1 (generateKey_falls_back _ ["a"] (Examples.no_key "no commit")
                   (Examples.fixed_key "k") _ _ _) "k" _).
  - reflexivity.
  - by eexists.
  - reflexivity.
  - reflexivity.
Defined.

(** C5, as amended: with a primary generator configured, [generateKey]
    returns an error, an ordinary result, exactly when the primary fails
    and the fallback is not configured or fails too. *)
Theorem generateKey_error_iff (r : restorer) (parts : list string)
    (gen : Generator) :
  g r = Some gen ->
  (exists e, key_error r parts e)
  <-> generator_fails gen parts
      /\ match fg r with
         | Some fgen => generator_fails fgen parts
         | None => True
         end.
Proof.
  intros Hg. unfold key_error, generator_fails, generateKey. rewrite Hg.
  destruct (Generate gen parts) as [k [e|]]; simpl; cycle 1.
  { split; [intros (e0 & key & ?); discriminate |].
    intros [[? ?] _]. discriminate. }
  destruct (fg r) as [fgen|].
  - destruct (Generate fgen parts) as [k' [e'|]]; simpl.
    + split; [intros _ | intros _]; eauto 6.
    + split; [intros (e0 & key & ?); discriminate |].
      intros [_ [? ?]]. discriminate.
  - split; [intros _ | intros _]; eauto 6.
Qed.

Lemma generateKey_error_iff_witness :
  exists e,
    key_error
      (NewRestorer (Examples.bucket []) Examples.plain
         (Some (Examples.no_key "no commit"))
         (Some (Examples.no_key "no branch")) "repo" false true "" "")
      [] e.
Proof.
  apply (generateKey_error_iff
           (NewRestorer (Examples.bucket []) Examples.plain
              (Some (Examples.no_key "no commit"))
              (Some (Examples.no_key "no branch")) "repo" false true "" "")
           [] (Examples.no_key "no commit")).
  - reflexivity.
  - split; by eexists.
Defined.

(** C5, as stated, fails for a restorer whose primary generator fails and
    that has no fallback: [generateKey] returns the error of the primary,
    and it is not the case that both generators fail or that there is no
    primary. *)
Lemma generateKey_error_without_fallback :
  let r := NewRestorer (Examples.bucket []) Examples.plain
             (Some (Examples.no_key "no commit")) None
             "repo" false true "" "" in
  generateKey r [] = Ret ("", Some (ErrOther "no commit"))
  /\ ~ ((exists e, key_error r [] e) <-> both_fail_or_no_primary r []).
Proof.
  split; [reflexivity |].
  intros [Hfwd _].
  destruct Hfwd as [(gen & fgen & _ & Hfg & _) | Hg];
    [by eexists; eexists | discriminate ..].
Qed.

(** Without a primary generator the call does not return: it panics on
    the nil interface. *)
Lemma generateKey_nil_primary_panics (r : restorer) (parts : list string) :
  g r = None -> generateKey r parts = Panic nil_dereference.
Proof. intros Hg. unfold generateKey. by rewrite Hg. Qed.

(** ** The goroutines: what every schedule preserves *)

Lemma events_of_app (i : nat) (tr tr' : list event) :
  events_of i (tr ++ tr') = events_of i tr ++ events_of i tr'.
Proof. apply List.filter_app. Qed.

Lemma events_of_task (i j : nat) (evs : list event) :
  Forall (fun ev => task_of ev = Some j) evs ->
  events_of i evs = if Nat.eqb j i then evs else [].
Proof.
  unfold events_of. induction 1 as [|ev evs Hev _ IH]; simpl.
  - by destruct (Nat.eqb j i).
  - unfold by_task at 1. rewrite Hev, IH. by destruct (Nat.eqb j i).
Qed.

Lemma caller_events_app (tr tr' : list event) :
  caller_events (tr ++ tr') = caller_events tr ++ caller_events tr'.
Proof. apply List.filter_app. Qed.

Lemma caller_events_task (j : nat) (evs : list event) :
  Forall (fun ev => task_of ev = Some j) evs -> caller_events evs = [].
Proof.
  unfold caller_events. induction 1 as [|ev evs Hev _ IH]; simpl; [done |].
  unfold by_caller at 1. by rewrite Hev.
Qed.

Lemma caller_events_caller (evs : list event) :
  Forall (fun ev => task_of ev = None) evs ->
  caller_events evs = evs /\ forall i, events_of i evs = [].
Proof.
  unfold caller_events, events_of.
  induction 1 as [|ev evs Hev _ [IH1 IH2]]; simpl; [done |].
  unfold by_caller at 1, by_task. rewrite Hev. split; [congruence | apply IH2].
Qed.

Section Insert.

Context {A B : Type} (f : A -> option B).

Lemma omap_insert_same (l : list A) (i : nat) (x y : A) :
  l !! i = Some x -> f y = f x -> omap f (<[i := y]> l) = omap f l.
Proof.
  intros Hi Hf.
  rewrite insert_take_drop by (by eapply lookup_lt_Some).
  rewrite <- (take_drop_middle l i x Hi) at 3.
  rewrite !omap_app. simpl. by rewrite Hf.
Qed.

Lemma omap_insert_new (l : list A) (i : nat) (x y : A) (b : B) :
  l !! i = Some x -> f x = None -> f y = Some b ->
  omap f (<[i := y]> l) ≡ₚ omap f l ++ [b].
Proof.
  intros Hi Hx Hy.
  rewrite insert_take_drop by (by eapply lookup_lt_Some).
  rewrite <- (take_drop_middle l i x Hi) at 3.
  rewrite !omap_app. simpl. rewrite Hx, Hy.
  rewrite <- app_assoc. apply Permutation_app_head.
  apply Permutation_cons_append.
Qed.

End Insert.

Section InvariantFacts.

Variables (h : Host) (r : restorer) (namespace key : string).
Variables (dsts : list string) (evs : list event).

Lemma invariant_init (fs : files) :
  Forall (fun ev => task_of ev = None) evs -> invariant h r namespace key dsts evs (init dsts fs evs).
Proof.
  intros Hevs. destruct (caller_events_caller evs Hevs) as [Hc Ht].
  constructor; simpl; auto.
Qed.

Lemma invariant_loop (st st' : state) :
  invariant h r namespace key dsts evs st -> loop h namespace key st = Some st' -> invariant h r namespace key dsts evs st'.
Proof.
  intros [Hd Hs Ha He Hc Ht]. unfold loop.
  destruct (st_todo st) as [|dst rest] eqn:Htodo; [done |].
  intros [= <-]. constructor; simpl.
  - rewrite fmap_app, <- app_assoc. done.
  - apply Forall_app. split; [done | by repeat constructor].
  - apply Forall_app. split; [done | by repeat constructor].
  - rewrite omap_app. simpl. by rewrite app_nil_r.
  - rewrite caller_events_app, Hc.
    rewrite (caller_events_task (length (st_pool st)))
      by (by repeat constructor).
    apply app_nil_r.
  - intros i. specialize (Ht i).
    rewrite events_of_app.
    rewrite (events_of_task i (length (st_pool st)) [_])
      by (by repeat constructor).
    destruct (lt_eq_lt_dec i (length (st_pool st))) as [[Hlt | ->] | Hgt].
    + rewrite lookup_app_l by done.
      assert (Nat.eqb (length (st_pool st)) i = false) as ->
        by (apply Nat.eqb_neq; lia).
      by rewrite app_nil_r.
    + rewrite lookup_ge_None_2 in Ht by done.
      rewrite lookup_app_r, Nat.sub_diag, Nat.eqb_refl, Ht by done.
      done.
    + rewrite lookup_ge_None_2 in Ht by lia.
      rewrite lookup_ge_None_2 by (rewrite length_app; simpl; lia).
      assert (Nat.eqb (length (st_pool st)) i = false) as ->
        by (apply Nat.eqb_neq; lia).
      by rewrite app_nil_r.
Qed.

(** A step of goroutine [i] that moves it to [p] and adds [new] to the
    events keeps what the invariant says of the other goroutines. *)
Lemma tasks_after_step (st : state) (i : nat) (t : goroutine) (p : position)
    (new : list event) :
  st_pool st !! i = Some t ->
  Forall (fun ev => task_of ev = Some i) new ->
  (forall j,
     match st_pool st !! j with
     | Some t => task_trace h r j t (events_of j (st_trace st))
     | None => events_of j (st_trace st) = []
     end) ->
  task_trace h r i (move t p) (events_of i (st_trace st) ++ new) ->
  forall j,
    match <[i := move t p]> (st_pool st) !! j with
    | Some t => task_trace h r j t (events_of j (st_trace st ++ new))
    | None => events_of j (st_trace st ++ new) = []
    end.
Proof.
  intros Hi Hnew Ht Hmine j.
  rewrite events_of_app, (events_of_task j i new) by done.
  destruct (decide (j = i)) as [-> | Hne].
  - rewrite list_lookup_insert_eq by (by eapply lookup_lt_Some).
    by rewrite Nat.eqb_refl.
  - rewrite list_lookup_insert_ne by done.
    assert (Nat.eqb i j = false) as -> by (apply Nat.eqb_neq; lia).
    rewrite app_nil_r. apply Ht.
Qed.

Lemma dsts_after_step (st : state) (i : nat) (t : goroutine) (p : position) :
  st_pool st !! i = Some t ->
  g_dst <$> <[i := move t p]> (st_pool st) = g_dst <$> st_pool st.
Proof.
  intros Hi. rewrite list_fmap_insert. apply list_insert_id.
  by rewrite list_lookup_fmap, Hi.
Qed.

Lemma invariant_step_task (i : nat) (st st' : state) :
  invariant h r namespace key dsts evs st -> step_task h r i st = Some st' -> invariant h r namespace key dsts evs st'.
Proof.
  intros [Hd Hs Ha He Hc Ht]. unfold step_task.
  destruct (st_pool st !! i) as [t|] eqn:Hi; [| done].
  pose proof (Ht i) as Hti. rewrite Hi in Hti.
  pose proof (Forall_lookup_1 _ _ _ _ Ha Hi) as Hat.
  pose proof (Forall_lookup_1 _ _ _ _ Hs Hi) as Hsrc.
  unfold task_trace in Hti. unfold position_ok in Hat.
  destruct (g_at t) as [|written|err|] eqn:Hpos; [| | | done].
  - (* r.restore runs the download and the extraction *)
    destruct (pipe_session r (g_src t) (g_dst t)) as [written err] eqn:Hses.
    intros [= <-]. constructor; simpl.
    + by rewrite dsts_after_step.
    + by apply Forall_insert.
    + apply Forall_insert; [done |]. unfold position_ok, restore_error. simpl.
      rewrite Hses. by destruct err.
    + rewrite (omap_insert_same _ _ _ t) by (done || (unfold recorded, finished; simpl; rewrite Hpos; by destruct err)).
      done.
    + rewrite caller_events_app, Hc, (caller_events_task i)
        by (by repeat constructor).
      apply app_nil_r.
    + apply tasks_after_step; [done | by repeat constructor | done |].
      rewrite Hti. unfold task_trace. simpl. by destruct err.
  - (* writeCacheMetadata, return nil, wg.Done *)
    destruct (writeCacheMetadata h (metadata_of h written)
                PLUGIN_CACHE_INTEL_FILE_NAME (st_files st)) as [fs res].
    intros [= <-]. constructor; simpl.
    + by rewrite dsts_after_step.
    + by apply Forall_insert.
    + by apply Forall_insert.
    + rewrite (omap_insert_same _ _ _ t); [done | done |].
      unfold recorded, finished, failure, restore_error. simpl.
      by rewrite Hpos, Hat.
    + rewrite caller_events_app, Hc, (caller_events_task i)
        by (by repeat constructor).
      apply app_nil_r.
    + apply tasks_after_step; [done | by repeat constructor | done |].
      rewrite Hti. unfold task_trace. simpl. rewrite Hat. by exists res.
  - (* errs.Add, wg.Done *)
    intros [= <-]. constructor; simpl.
    + by rewrite dsts_after_step.
    + by apply Forall_insert.
    + by apply Forall_insert.
    + unfold internal.Add. rewrite He. symmetry.
      apply (omap_insert_new _ _ _ t); [done | |].
      * unfold recorded, finished. by rewrite Hpos.
      * unfold recorded, finished, failure. simpl. by rewrite Hat.
    + rewrite caller_events_app, Hc, (caller_events_task i)
        by (by repeat constructor).
      apply app_nil_r.
    + apply tasks_after_step; [done | by repeat constructor | done |].
      rewrite Hti. unfold task_trace, failure. simpl.
      unfold restore_error in Hat |- *.
      destruct (pipe_session r (g_src t) (g_dst t)) as [w [e|]]; [| done].
      injection Hat as <-. eexists. split; reflexivity.
Qed.

Lemma invariant_exec (c : choice) (st st' : state) :
  invariant h r namespace key dsts evs st -> exec h r namespace key c st = Some st' -> invariant h r namespace key dsts evs st'.
Proof.
  destruct c; simpl; eauto using invariant_loop, invariant_step_task.
Qed.

Lemma invariant_run (sched : list choice) (st : state) :
  invariant h r namespace key dsts evs st -> invariant h r namespace key dsts evs (run h r namespace key sched st).
Proof.
  revert st. induction sched as [|c sched IH]; intros st Hst; [done |].
  simpl. apply IH.
  destruct (exec h r namespace key c st) as [st'|] eqn:Hc; simpl;
    eauto using invariant_exec.
Qed.

End InvariantFacts.

(** ** The goroutines: every run can be brought to its end *)

Section Completion.

Variables (h : Host) (r : restorer) (namespace key : string).

Lemma run_app (sched sched' : list choice) (st : state) :
  run h r namespace key (sched ++ sched') st
  = run h r namespace key sched' (run h r namespace key sched st).
Proof. apply foldl_app. Qed.

Lemma weight_insert (pool : list goroutine) (i : nat) (t t' : goroutine) :
  pool !! i = Some t ->
  S (steps_left t') = steps_left t ->
  S (sum_list_with steps_left (<[i := t']> pool))
  = sum_list_with steps_left pool.
Proof.
  intros Hi Hless.
  rewrite insert_take_drop by (by eapply lookup_lt_Some).
  rewrite <- (take_drop_middle pool i t Hi) at 3.
  rewrite !sum_list_with_app. simpl. lia.
Qed.

(** A goroutine that has not finished can always take its next step,
    whatever the others have done, and whatever [errs] holds. *)
Lemma step_task_enabled (st : state) (i : nat) (t : goroutine) :
  st_pool st !! i = Some t ->
  finished t = false ->
  exists st', step_task h r i st = Some st' /\ S (weight st') = weight st.
Proof.
  intros Hi Hfin. unfold step_task, weight. rewrite Hi.
  unfold finished in Hfin.
  assert (forall p, S (steps_left (move t p)) = steps_left t ->
            S (3 * length (st_todo st)
               + sum_list_with steps_left (<[i := move t p]> (st_pool st)))
            = 3 * length (st_todo st) + sum_list_with steps_left (st_pool st))
    as Hw.
  { intros p Hp. rewrite <- (weight_insert (st_pool st) i t (move t p) Hi Hp).
    lia. }
  destruct (g_at t) as [|written|err|] eqn:Hpos; [| | | done].
  - destruct (pipe_session r (g_src t) (g_dst t)) as [written err].
    eexists. split; [reflexivity |]. simpl.
    apply Hw. unfold steps_left. simpl. rewrite Hpos. by destruct err.
  - destruct (writeCacheMetadata h (metadata_of h written)
                PLUGIN_CACHE_INTEL_FILE_NAME (st_files st)) as [fs res].
    eexists. split; [reflexivity |]. simpl.
    apply Hw. unfold steps_left. simpl. by rewrite Hpos.
  - eexists. split; [reflexivity |]. simpl.
    apply Hw. unfold steps_left. simpl. by rewrite Hpos.
Qed.

Lemma loop_enabled (st : state) :
  st_todo st <> [] ->
  exists st', loop h namespace key st = Some st' /\ S (weight st') = weight st.
Proof.
  intros Htodo. unfold loop, weight.
  destruct (st_todo st) as [|dst rest]; [done |].
  eexists. split; [reflexivity |]. simpl.
  rewrite sum_list_with_app. simpl. lia.
Qed.

Lemma unfinished (pool : list goroutine) :
  forallb finished pool = false ->
  exists i t, pool !! i = Some t /\ finished t = false.
Proof.
  induction pool as [|t pool IH]; simpl; [done |].
  destruct (finished t) eqn:Hfin; simpl.
  - intros (i & t' & ? & ?)%IH. by exists (S i), t'.
  - intros _. by exists 0, t.
Qed.

Lemma not_joined_enabled (st : state) :
  joined st = false ->
  exists c st',
    exec h r namespace key c st = Some st' /\ S (weight st') = weight st.
Proof.
  unfold joined. destruct (st_todo st) as [|dst rest] eqn:Htodo.
  - intros (i & t & Hi & Hfin)%unfinished.
    destruct (step_task_enabled st i t Hi Hfin) as (st' & ? & ?).
    by exists (Run i), st'.
  - intros _. destruct (loop_enabled st) as (st' & ? & ?); [by rewrite Htodo |].
    by exists Loop, st'.
Qed.

(** From every state some schedule reaches the point where [wg.Wait()]
    returns, in as many steps as the state weighs. *)
Lemma run_completes (st : state) :
  exists sched,
    length sched <= weight st
    /\ joined (run h r namespace key sched st) = true.
Proof.
  remember (weight st) as n eqn:Hn. revert st Hn.
  induction n as [n IH] using lt_wf_ind. intros st ->.
  destruct (joined st) eqn:Hj.
  - exists []. split; [simpl; lia | done].
  - destruct (not_joined_enabled st Hj) as (c & st' & Hc & Hw).
    destruct (IH (weight st') ltac:(lia) st' eq_refl) as (sched & Hlen & Hend).
    exists (c :: sched). split; [simpl; lia |].
    simpl. by rewrite Hc.
Qed.

End Completion.

(** ** [Restore]: what a call that has returned leaves *)

Lemma Restore_plan_caller (h : Host) (r : restorer) (dsts : list string) :
  Forall (fun ev => task_of ev = None) (fst (Restore_plan h r dsts)).
Proof.
  unfold Restore_plan.
  destruct (generateKey r []) as [[key [err|]]|msg]; simpl; [done | | done].
  destruct dsts as [|dst dsts]; [| done].
  destruct (List (s r) _) as [entries [e|]]; simpl.
  - destruct (is_ErrNotImplemented e); by repeat constructor.
  - destruct (failIfKeyNotPresent r && _); by repeat constructor.
Qed.

Lemma early_exit_not_restore_failed (h : Host) (r : restorer)
    (dsts : list string) (evs : list event) (res : go_result (option error))
    (es : list error) :
  Restore_plan h r dsts = (evs, EarlyExit res) ->
  res <> Ret (Some (Errorf "restore failed, %w" [inr (ErrMulti es)])).
Proof.
  unfold Restore_plan.
  destruct (generateKey r []) as [[key [err|]]|msg];
    [intros [= _ <-]; discriminate | | intros [= _ <-]; discriminate].
  destruct dsts as [|dst dsts]; [| discriminate].
  destruct (List (s r) _) as [entries [e|]].
  - destruct (is_ErrNotImplemented e); [discriminate |].
    intros [= _ <-]. discriminate.
  - destruct (failIfKeyNotPresent r && _); [| discriminate].
    intros [= _ <-]. discriminate.
Qed.

Lemma joined_spec (st : state) :
  joined st = true
  <-> st_todo st = [] /\ Forall (fun t => g_at t = Finished) (st_pool st).
Proof.
  unfold joined. destruct (st_todo st) as [|dst rest].
  - rewrite forallb_forall, Forall_forall. unfold finished.
    split.
    + intros Hall. split; [done |]. intros t Ht%list_elem_of_In.
      specialize (Hall t Ht). by destruct (g_at t).
    + intros [_ Hall] t Ht%list_elem_of_In. by rewrite (Hall t Ht).
  - split; [done | by intros [? _]].
Qed.

(** A call that is over before the loop. *)
Lemma Restore_early (h : Host) (r : restorer) (dsts : list string) (fs : files)
    (sched : list choice) (o : outcome) (evs : list event)
    (res : go_result (option error)) :
  Restore_plan h r dsts = (evs, EarlyExit res) ->
  Restore h r dsts fs sched = Some o ->
  o = {| result := res; out_tasks := []; out_files := fs; out_trace := evs |}.
Proof. unfold Restore. intros ->. by intros [= <-]. Qed.

(** A call that has gone through the loop and [wg.Wait()]. *)
Lemma Restore_fan_out (h : Host) (r : restorer) (dsts : list string)
    (fs : files) (sched : list choice) (o : outcome) (evs : list event)
    (namespace key : string) (dsts' : list string) :
  Restore_plan h r dsts = (evs, FanOut namespace key dsts') ->
  Restore h r dsts fs sched = Some o ->
  exists st,
    invariant h r namespace key dsts' evs st
    /\ st_todo st = []
    /\ Forall (fun t => g_at t = Finished) (st_pool st)
    /\ o = {| result := Ret (Restore_end (st_errs st));
              out_tasks := st_pool st;
              out_files := st_files st;
              out_trace := st_trace st |}.
Proof.
  intros Hplan. unfold Restore. rewrite Hplan.
  destruct (joined _) eqn:Hj; [| done]. intros [= <-].
  apply joined_spec in Hj as [Htodo Hfin].
  eexists. split; [| by repeat split].
  apply invariant_run, invariant_init.
  pose proof (Restore_plan_caller h r dsts) as Hc. by rewrite Hplan in Hc.
Qed.

Lemma recorded_when_finished (r : restorer) (pool : list goroutine) :
  Forall (fun t => g_at t = Finished) pool ->
  omap (recorded r) pool = omap (failure r) pool.
Proof.
  induction 1 as [|t pool Ht _ IH]; [done |].
  change (omap ?f (t :: pool))
    with (match f t with Some e => e :: omap f pool | None => omap f pool end).
  rewrite IH. unfold recorded, finished. by rewrite Ht.
Qed.

Lemma events_of_elem (i : nat) (ev : event) (tr : list event) :
  ev ∈ events_of i tr -> ev ∈ tr.
Proof.
  rewrite !list_elem_of_In. unfold events_of. rewrite filter_In. tauto.
Qed.

Lemma failure_is_Some (r : restorer) (t : goroutine) :
  is_Some (failure r t) <-> destination_fails r t.
Proof.
  unfold failure, destination_fails.
  destruct (restore_error r (g_src t) (g_dst t)); split; intros [? ?];
    by eexists.
Qed.

Lemma omap_nil_iff {A B : Type} (f : A -> option B) (l : list A) :
  omap f l = [] <-> ~ Exists (fun x => is_Some (f x)) l.
Proof.
  induction l as [|x l IH]; simpl.
  - split; [intros _ H; inversion H | done].
  - rewrite Exists_cons. destruct (f x) as [b|] eqn:Hx.
    + split; [done | intros []; left; by eexists].
    + rewrite IH. split; [intros Hl [[? ?] | ?]; [done | tauto] | tauto].
Qed.

(** What holds of every call of [Restore] that has returned, under any
    schedule: one goroutine per destination of the loop, all of them after
    [wg.Done]; [errs] holds the failures of the goroutines, each once; the
    events of the caller are those before the loop, and the events of each
    goroutine are those of its steps. *)
Lemma Restore_sound (h : Host) (r : restorer) (dsts : list string) (fs : files)
    (sched : list choice) (o : outcome) :
  Restore h r dsts fs sched = Some o ->
  g_dst <$> out_tasks o = targets h r dsts
  /\ Forall (fun t => g_at t = Finished) (out_tasks o)
  /\ (match snd (Restore_plan h r dsts) with
      | EarlyExit res => result o = res
      | FanOut namespace key _ =>
          Forall (fun t => g_src t = source h namespace key (g_dst t))
            (out_tasks o)
          /\ exists es,
               result o = Ret (Restore_end es)
               /\ es ≡ₚ omap (failure r) (out_tasks o)
      end)
  /\ caller_events (out_trace o) = fst (Restore_plan h r dsts)
  /\ forall i,
       match out_tasks o !! i with
       | Some t => task_trace h r i t (events_of i (out_trace o))
       | None => events_of i (out_trace o) = []
       end.
Proof.
  intros Hret. unfold targets.
  destruct (Restore_plan h r dsts) as [evs [res | namespace key dsts']] eqn:Hplan.
  - rewrite (Restore_early _ _ _ _ _ _ _ _ Hplan Hret). simpl.
    pose proof (Restore_plan_caller h r dsts) as Hc. rewrite Hplan in Hc.
    destruct (caller_events_caller evs Hc) as [Hc1 Hc2].
    repeat split; auto.
  - destruct (Restore_fan_out _ _ _ _ _ _ _ _ _ _ Hplan Hret)
      as (st & [Hd Hs Ha He Hc Ht] & Htodo & Hfin & ->).
    simpl. rewrite Htodo, app_nil_r in Hd.
    repeat split; auto.
    exists (st_errs st). split; [done |].
    by rewrite <- recorded_when_finished.
Qed.

(** Whatever the scheduler has done so far, it can go on to the point where
    [Restore] returns: no goroutine is ever stopped or left waiting. *)
Lemma Restore_returns (h : Host) (r : restorer) (dsts : list string)
    (fs : files) (sched : list choice) :
  exists more o, Restore h r dsts fs (sched ++ more) = Some o.
Proof.
  unfold Restore.
  destruct (Restore_plan h r dsts) as [evs [res | namespace key dsts']].
  - by exists [], {| result := res; out_tasks := []; out_files := fs;
                     out_trace := evs |}.
  - destruct (run_completes h r namespace key
                (run h r namespace key sched (init dsts' fs evs)))
      as (more & _ & Hj).
    exists more. rewrite run_app, Hj. by eexists.
Qed.

Lemma Restore_end_failed (es es' : list error) :
  Restore_end es' = Some (Errorf "restore failed, %w" [inr (ErrMulti es)])
  <-> es' <> [] /\ es = es'.
Proof.
  unfold Restore_end, internal.Err. destruct es' as [|e es'].
  - split; [done | by intros [? _]].
  - split; [by intros [= <-] | by intros [_ ->]].
Qed.

Lemma restore_failed_errs (h : Host) (r : restorer) (dsts : list string)
    (fs : files) (sched : list choice) (o : outcome) (es : list error) :
  Restore h r dsts fs sched = Some o ->
  restore_failed o es ->
  es <> [] /\ es ≡ₚ omap (failure r) (out_tasks o).
Proof.
  intros Hret Hfail. unfold restore_failed in Hfail.
  destruct (Restore_sound _ _ _ _ _ _ Hret) as (_ & _ & Hres & _).
  destruct (Restore_plan h r dsts) as [evs [res | namespace key dsts']] eqn:Hplan;
    simpl in Hres.
  - exfalso. eapply early_exit_not_restore_failed; [exact Hplan |].
    rewrite <- Hres. exact Hfail.
  - destruct Hres as (_ & es' & Hres & Hperm).
    rewrite Hres in Hfail. injection Hfail as Hfail.
    apply Restore_end_failed in Hfail as [Hne ->]. by split.
Qed.

Lemma restore_failed_when (h : Host) (r : restorer) (dsts : list string)
    (fs : files) (sched : list choice) (o : outcome) :
  Restore h r dsts fs sched = Some o ->
  omap (failure r) (out_tasks o) <> [] ->
  exists es, restore_failed o es.
Proof.
  intros Hret Hsome. unfold restore_failed.
  destruct (Restore_sound _ _ _ _ _ _ Hret) as (_ & _ & Hres & _).
  destruct (Restore_plan h r dsts) as [evs [res | namespace key dsts']] eqn:Hplan;
    simpl in Hres.
  - rewrite (Restore_early _ _ _ _ _ _ _ _ Hplan Hret) in Hsome. done.
  - destruct Hres as (_ & es' & Hres & Hperm).
    exists es'. rewrite Hres. f_equal.
    apply Restore_end_failed. split; [| done].
    intros ->. apply Permutation_nil_l in Hperm. done.
Qed.

Lemma done_in_trace (h : Host) (r : restorer) (i : nat) (t : goroutine)
    (tr : list event) :
  g_at t = Finished ->
  task_trace h r i t (events_of i tr) ->
  EvDone i ∈ tr.
Proof.
  unfold task_trace. intros ->.
  destruct (pipe_session r (g_src t) (g_dst t)) as [written [e|]].
  - intros (e' & _ & Hevs). apply (events_of_elem i). rewrite Hevs.
    simpl. do 4 apply list_elem_of_further. apply list_elem_of_here.
  - intros (res & Hevs). apply (events_of_elem i). rewrite Hevs.
    simpl. do 4 apply list_elem_of_further. apply list_elem_of_here.
Qed.

(** C1, as amended: whatever the scheduler has done, the call can go on
    until it returns; and when it has returned, under any schedule, there
    is one goroutine per destination of the loop and each has run to its
    [wg.Done]; [Restore] returns its "restore failed" error if and only if
    the download and extraction of some destination failed; and the errors
    in it are the failures of the destinations, each one once. *)
Theorem Restore_collects_every_failure (h : Host) (r : restorer)
    (dsts : list string) (fs : files) (sched : list choice) :
  (exists more o, Restore h r dsts fs (sched ++ more) = Some o)
  /\ forall o,
       Restore h r dsts fs sched = Some o ->
       g_dst <$> out_tasks o = targets h r dsts
       /\ (forall i t, out_tasks o !! i = Some t ->
             g_at t = Finished /\ EvDone i ∈ out_trace o)
       /\ ((exists es, restore_failed o es)
           <-> Exists (destination_fails r) (out_tasks o))
       /\ (forall es, restore_failed o es ->
             es ≡ₚ omap (failure r) (out_tasks o)).
Proof.
  split; [apply Restore_returns |].
  intros o Hret.
  destruct (Restore_sound _ _ _ _ _ _ Hret) as (Hd & Hfin & _ & _ & Ht).
  split; [done |]. split; [| split].
  - intros i t Hi.
    pose proof (Forall_lookup_1 _ _ _ _ Hfin Hi) as Hat.
    split; [done |]. specialize (Ht i). rewrite Hi in Ht.
    exact (done_in_trace h r i t _ Hat Ht).
  - split.
    + intros [es Hfail].
      destruct (restore_failed_errs _ _ _ _ _ _ _ Hret Hfail) as [Hne Hperm].
      destruct (decide (Exists (destination_fails r) (out_tasks o)))
        as [? | Hno]; [done |].
      exfalso. apply Hne.
      assert (omap (failure r) (out_tasks o) = []) as Hnil.
      { apply omap_nil_iff. intros Hex. apply Hno.
        eapply Exists_impl; [exact Hex |]. intros t. apply failure_is_Some. }
      rewrite Hnil in Hperm. by apply Permutation_nil_r in Hperm.
    + intros Hex. eapply restore_failed_when; [exact Hret |].
      intros Hnil%omap_nil_iff. apply Hnil.
      eapply Exists_impl; [exact Hex |]. intros t. apply failure_is_Some.
  - intros es Hfail.
    by destruct (restore_failed_errs _ _ _ _ _ _ _ Hret Hfail).
Qed.

Lemma Restore_collects_every_failure_witness :
  exists o,
    Restore Examples.linux (Examples.restorer_on (Examples.bucket Examples.objects))
      ["a"; "zz"; "b"] ∅ (all_at_once 3) = Some o
    /\ (g_dst <$> out_tasks o) = ["a"; "zz"; "b"]
    /\ exists es, restore_failed o es /\ length es = 1.
Proof.
  eexists. split; [vm_compute; reflexivity |].
  match goal with
  | |- context [out_tasks ?o] =>
      destruct (proj2 (Restore_collects_every_failure Examples.linux
                  (Examples.restorer_on (Examples.bucket Examples.objects))
                  ["a"; "zz"; "b"] ∅ (all_at_once 3)) o)
        as (Hd & _ & Hiff & Hperm); [vm_compute; reflexivity |]
  end.
  split; [exact Hd |].
  destruct (proj2 Hiff) as [es Hes].
  { apply Exists_cons_tl, Exists_cons_hd. by eexists. }
  exists es. split; [exact Hes |].
  by rewrite (Permutation_length (Hperm es Hes)).
Defined.

(** C1, as stated, fails for a call that is over before the loop: the key
    generator fails, [Restore] returns an error, and no destination has
    failed, none was even tried. *)
Lemma Restore_error_without_failed_destination :
  let r := NewRestorer (Examples.bucket Examples.objects) Examples.plain
             (Some (Examples.no_key "no commit")) None
             "repo" false true "" "" in
  exists o,
    Restore Examples.linux r ["a"; "b"] ∅ (all_at_once 2) = Some o
    /\ out_tasks o = []
    /\ ~ (returns_error o <-> Exists (destination_fails r) (out_tasks o)).
Proof.
  eexists. split; [vm_compute; reflexivity |]. split; [reflexivity |].
  intros [Hfwd _]. simpl in Hfwd.
  assert (Exists (destination_fails
            (NewRestorer (Examples.bucket Examples.objects) Examples.plain
               (Some (Examples.no_key "no commit")) None
               "repo" false true "" "")) []) as Hex
    by (apply Hfwd; by eexists).
  inversion Hex.
Qed.

(** ** Discovery *)

(** [r.s.List] is called only with no destination given and a key
    generated, once, with the prefix of the namespace and the key. *)
Lemma Restore_plan_List (h : Host) (r : restorer) (dsts : list string)
    (prefix : string) :
  EvList prefix ∈ fst (Restore_plan h r dsts) ->
  dsts = []
  /\ exists key,
       generateKey r [] = Ret (key, None)
       /\ prefix = list_prefix h r (cleaned_namespace h r) key
       /\ Restore_plan h r dsts = ([EvList prefix], after_List h r key prefix).
Proof.
  unfold Restore_plan, after_List.
  destruct (generateKey r []) as [[key [err|]]|msg]; simpl;
    [by intros ?%elem_of_nil | | by intros ?%elem_of_nil].
  destruct dsts as [|dst dsts]; [| by intros ?%elem_of_nil].
  destruct (List (s r) (list_prefix h r (cleaned_namespace h r) key))
    as [entries [e|]] eqn:HList.
  - destruct (is_ErrNotImplemented e) eqn:He; simpl;
      intros Hin%list_elem_of_singleton; injection Hin as ->;
      (split; [done |]); exists key; rewrite HList, He; done.
  - destruct (failIfKeyNotPresent r && (length entries =? 0)%nat) eqn:Hf; simpl;
      intros Hin%list_elem_of_singleton; injection Hin as ->;
      (split; [done |]); exists key; rewrite HList, Hf; done.
Qed.

Lemma caller_events_elem (ev : event) (tr : list event) :
  task_of ev = None -> ev ∈ tr -> ev ∈ caller_events tr.
Proof.
  rewrite !list_elem_of_In. unfold caller_events. rewrite filter_In.
  intros Hev ?. split; [done |]. unfold by_caller. by rewrite Hev.
Qed.

(** A call in which [r.s.List] was called. *)
Lemma Restore_listed (h : Host) (r : restorer) (dsts : list string) (fs : files)
    (sched : list choice) (o : outcome) (prefix : string) :
  Restore h r dsts fs sched = Some o ->
  EvList prefix ∈ out_trace o ->
  dsts = []
  /\ exists key,
       generateKey r [] = Ret (key, None)
       /\ prefix = list_prefix h r (cleaned_namespace h r) key
       /\ Restore_plan h r dsts = ([EvList prefix], after_List h r key prefix).
Proof.
  intros Hret Hin. apply Restore_plan_List.
  destruct (Restore_sound _ _ _ _ _ _ Hret) as (_ & _ & _ & <- & _).
  by apply caller_events_elem.
Qed.

(** With no goroutine to start, no choice of the scheduler does anything. *)
Lemma run_idle (h : Host) (r : restorer) (namespace key : string)
    (sched : list choice) (st : state) :
  st_todo st = [] -> st_pool st = [] ->
  run h r namespace key sched st = st.
Proof.
  intros Htodo Hpool. induction sched as [|c sched IH]; [done |].
  simpl. destruct c as [|i]; simpl.
  - unfold loop. rewrite Htodo. apply IH.
  - unfold step_task. rewrite Hpool, lookup_nil. apply IH.
Qed.

Lemma Restore_no_target (h : Host) (r : restorer) (dsts : list string)
    (fs : files) (sched : list choice) (evs : list event)
    (namespace key : string) :
  Restore_plan h r dsts = (evs, FanOut namespace key []) ->
  Restore h r dsts fs sched
  = Some {| result := Ret None; out_tasks := []; out_files := fs;
            out_trace := evs |}.
Proof. unfold Restore. intros ->. by rewrite run_idle. Qed.

(** C6: when [r.s.List] has been called and returns the sentinel
    [common.ErrNotImplemented], discovery adds no destination, the
    destinations of the caller go to the loop as they are, and [Restore]
    returns nil, under every schedule. *)
Theorem Restore_list_not_implemented (h : Host) (r : restorer)
    (dsts : list string) (fs : files) (sched : list choice) (o : outcome)
    (prefix : string) :
  Restore h r dsts fs sched = Some o ->
  EvList prefix ∈ out_trace o ->
  snd (List (s r) prefix) = Some ErrNotImplemented ->
  targets h r dsts = dsts
  /\ result o = Ret None
  /\ forall sched', Restore h r dsts fs sched' = Some o.
Proof.
  intros Hret Hin Hni.
  destruct (Restore_listed _ _ _ _ _ _ _ Hret Hin) as (-> & key & _ & _ & Hplan).
  unfold after_List in Hplan.
  destruct (List (s r) prefix) as [entries err]. simpl in Hni. subst err.
  simpl in Hplan. unfold targets. rewrite Hplan. split; [done |].
  rewrite (Restore_no_target _ _ _ _ sched _ _ _ Hplan) in Hret.
  injection Hret as <-. split; [done |].
  intros sched'. exact (Restore_no_target _ _ _ _ sched' _ _ _ Hplan).
Qed.

Lemma Restore_list_not_implemented_witness :
  exists o,
    Restore Examples.linux (Examples.restorer_on (Examples.unlisted Examples.objects))
      [] ∅ (all_at_once 1) = Some o
    /\ EvList "repo/k/" ∈ out_trace o
    /\ result o = Ret None.
Proof.
  eexists. split; [vm_compute; reflexivity |].
  split; [apply list_elem_of_here |].
  refine (proj1 (proj2 (Restore_list_not_implemented Examples.linux
            (Examples.restorer_on (Examples.unlisted Examples.objects))
            [] ∅ (all_at_once 1) _ "repo/k/" _ _ _))).
  - vm_compute; reflexivity.
  - apply list_elem_of_here.
  - reflexivity.
Defined.

(** C10: when [Restore] is called with no destination, and [r.s.List] has
    been called and returns the sentinel, or returns no entry while
    [failIfKeyNotPresent] is off, [Restore] returns nil, under every
    schedule, and has started no goroutine, called neither [Get] nor
    [Extract] and written no file: the call of [List] is all it has done. *)
Theorem Restore_nothing_to_restore (h : Host) (r : restorer) (fs : files)
    (sched : list choice) (o : outcome) (prefix : string) :
  Restore h r [] fs sched = Some o ->
  EvList prefix ∈ out_trace o ->
  snd (List (s r) prefix) = Some ErrNotImplemented
  \/ (List (s r) prefix = ([], None) /\ failIfKeyNotPresent r = false) ->
  o = {| result := Ret None; out_tasks := []; out_files := fs;
         out_trace := [EvList prefix] |}
  /\ forall sched', Restore h r [] fs sched' = Some o.
Proof.
  intros Hret Hin Hlist.
  destruct (Restore_listed _ _ _ _ _ _ _ Hret Hin) as (_ & key & _ & _ & Hplan).
  assert (after_List h r key prefix = FanOut (cleaned_namespace h r) key [])
    as Hafter.
  { unfold after_List. destruct Hlist as [Hni | [-> ->]]; [| done].
    destruct (List (s r) prefix) as [entries err]. simpl in Hni. by subst err. }
  rewrite Hafter in Hplan.
  rewrite (Restore_no_target _ _ _ _ sched _ _ _ Hplan) in Hret.
  injection Hret as <-. split; [done |].
  intros sched'. exact (Restore_no_target _ _ _ _ sched' _ _ _ Hplan).
Qed.

Lemma Restore_nothing_to_restore_witness :
  exists o,
    Restore Examples.linux (Examples.restorer_on (Examples.bucket []))
      [] ∅ (all_at_once 2) = Some o
    /\ out_trace o = [EvList "repo/k/"].
Proof.
  eexists. split; [vm_compute; reflexivity |].
  destruct (Restore_nothing_to_restore Examples.linux
              (Examples.restorer_on (Examples.bucket []))
              ∅ (all_at_once 2) _ "repo/k/" eq_refl
              ltac:(apply list_elem_of_here)
              ltac:(right; split; reflexivity)) as [Ho _].
  exact (f_equal out_trace Ho).
Defined.

(** ** The metadata artifact *)

Lemma events_of_elem_iff (i : nat) (ev : event) (tr : list event) :
  ev ∈ events_of i tr <-> ev ∈ tr /\ task_of ev = Some i.
Proof.
  rewrite !list_elem_of_In. unfold events_of. rewrite filter_In.
  unfold by_task. destruct (task_of ev) as [j|].
  - rewrite Nat.eqb_eq. split; intros [? ?]; split; congruence.
  - split; intros [? ?]; discriminate.
Qed.

Lemma filter_split {A : Type} (P : A -> bool) (l l1 l2 : list A) (x : A) :
  List.filter P l = l1 ++ x :: l2 ->
  exists before after,
    l = before ++ x :: after
    /\ List.filter P before = l1 /\ List.filter P after = l2.
Proof.
  revert l1. induction l as [|y l IH]; intros l1; simpl.
  - by destruct l1.
  - destruct (P y) eqn:Hy.
    + destruct l1 as [|b l1]; simpl.
      * intros [= -> <-]. by exists [], l.
      * intros [= <- (before & after & -> & <- & <-)%IH].
        exists (y :: before), after. simpl. by rewrite Hy.
    + intros (before & after & -> & <- & <-)%IH.
      exists (y :: before), after. simpl. by rewrite Hy.
Qed.

(** The events of a goroutine that has finished. *)
Lemma finished_task_events (h : Host) (r : restorer) (dsts : list string)
    (fs : files) (sched : list choice) (o : outcome) (i : nat) (t : goroutine) :
  Restore h r dsts fs sched = Some o ->
  out_tasks o !! i = Some t ->
  match pipe_session r (g_src t) (g_dst t) with
  | (written, None) =>
      exists res,
        events_of i (out_trace o)
        = session_events i t
          ++ [EvWriteMetadata i (metadata_of h written) res; EvDone i]
  | (_, Some _) =>
      exists e,
        failure r t = Some e
        /\ events_of i (out_trace o)
           = session_events i t ++ [EvAdd i e; EvDone i]
  end.
Proof.
  intros Hret Hi.
  destruct (Restore_sound _ _ _ _ _ _ Hret) as (_ & Hfin & _ & _ & Ht).
  specialize (Ht i). rewrite Hi in Ht. unfold task_trace in Ht.
  by rewrite (Forall_lookup_1 _ _ _ _ Hfin Hi) in Ht.
Qed.

(** A call of [writeCacheMetadata] is a step of a goroutine whose
    extraction has succeeded, with the bytes of that extraction, and comes
    before the [wg.Done] of that goroutine. *)
Lemma write_event_task (h : Host) (r : restorer) (dsts : list string)
    (fs : files) (sched : list choice) (o : outcome) (i : nat)
    (data : CacheMetadata) (res : option error) :
  Restore h r dsts fs sched = Some o ->
  EvWriteMetadata i data res ∈ out_trace o ->
  exists t written,
    out_tasks o !! i = Some t
    /\ pipe_session r (g_src t) (g_dst t) = (written, None)
    /\ data = metadata_of h written
    /\ events_of i (out_trace o)
       = session_events i t ++ [EvWriteMetadata i data res; EvDone i].
Proof.
  intros Hret Hin.
  assert (EvWriteMetadata i data res ∈ events_of i (out_trace o)) as Hmine
    by (by apply events_of_elem_iff).
  destruct (out_tasks o !! i) as [t|] eqn:Hi; cycle 1.
  { destruct (Restore_sound _ _ _ _ _ _ Hret) as (_ & _ & _ & _ & Ht).
    specialize (Ht i). rewrite Hi in Ht. rewrite Ht in Hmine.
    by apply elem_of_nil in Hmine. }
  pose proof (finished_task_events _ _ _ _ _ _ _ _ Hret Hi) as Hev.
  exists t. destruct (pipe_session r (g_src t) (g_dst t)) as [written [e|]].
  - destruct Hev as (e' & _ & Hev). rewrite Hev in Hmine.
    unfold session_events in Hmine. simpl in Hmine.
    elem_cases Hmine; discriminate.
  - destruct Hev as (res' & Hev). rewrite Hev in Hmine |- *.
    exists written.
    unfold session_events in Hmine. simpl in Hmine.
    elem_cases Hmine; try discriminate.
    injection Hmine as -> ->. done.
Qed.

(** [r.restore] returns the error of the extraction, or nil: what
    [writeCacheMetadata] returns is dropped. *)
Lemma restore_returns (h : Host) (r : restorer) (src dst : string) (fs : files) :
  snd (restore h r src dst fs) = restore_error r src dst.
Proof.
  unfold restore, restore_error.
  destruct (pipe_session r src dst) as [written [e|]]; [done |].
  by destruct (writeCacheMetadata _ _ _ _).
Qed.

(** The two steps of a goroutine are a call of [r.restore] and, when it
    fails, of [errs.Add]. *)
Lemma goroutine_runs_restore (h : Host) (r : restorer) (i : nat) (st : state)
    (t : goroutine) :
  st_pool st !! i = Some t ->
  g_at t = Started ->
  exists st1 st2,
    step_task h r i st = Some st1
    /\ step_task h r i st1 = Some st2
    /\ st_files st2 = fst (restore h r (g_src t) (g_dst t) (st_files st))
    /\ st_errs st2
       = match snd (restore h r (g_src t) (g_dst t) (st_files st)) with
         | Some e =>
             internal.Add (st_errs st)
               (Errorf "download from <%s> to <%s>, %w"
                  [inl (g_src t); inl (g_dst t); inr e])
         | None => st_errs st
         end.
Proof.
  intros Hi Hat. unfold step_task at 1, restore. rewrite Hi, Hat.
  pose proof (lookup_lt_Some _ _ _ Hi) as Hlt.
  destruct (pipe_session r (g_src t) (g_dst t)) as [written [e|]].
  - eexists; eexists; (split; [reflexivity |]).
    unfold step_task; simpl; rewrite list_lookup_insert_eq by done; simpl.
    split; [reflexivity | split; reflexivity].
  - destruct (writeCacheMetadata h (metadata_of h written)
                PLUGIN_CACHE_INTEL_FILE_NAME (st_files st)) as [fs' res] eqn:Hw.
    eexists; eexists; (split; [reflexivity |]).
    unfold step_task; simpl; rewrite list_lookup_insert_eq by done; simpl.
    rewrite Hw. split; [reflexivity | split; reflexivity].
Qed.

Lemma fan_out_result (h : Host) (r : restorer) (dsts : list string)
    (fs : files) (sched : list choice) (o : outcome) :
  Restore h r dsts fs sched = Some o ->
  out_tasks o <> [] ->
  exists es,
    result o = Ret (Restore_end es) /\ es ≡ₚ omap (failure r) (out_tasks o).
Proof.
  intros Hret Hne.
  destruct (Restore_sound _ _ _ _ _ _ Hret) as (_ & _ & Hres & _).
  destruct (Restore_plan h r dsts) as [evs [res | namespace key dsts']] eqn:Hplan;
    simpl in Hres.
  - by rewrite (Restore_early _ _ _ _ _ _ _ _ Hplan Hret) in Hne.
  - by destruct Hres as [_ Hres].
Qed.

(** C9: when a call of [writeCacheMetadata] has failed, the goroutine that
    made it has recorded no failure, [r.restore] for its destination
    returns nil; [Restore] returns nil unless the download or extraction
    of some destination failed; and the errors [Restore] returns are
    failures of download or extraction only. *)
Theorem metadata_failure_is_not_propagated (h : Host) (r : restorer)
    (dsts : list string) (fs : files) (sched : list choice) (o : outcome)
    (i : nat) (data : CacheMetadata) (e : error) :
  Restore h r dsts fs sched = Some o ->
  EvWriteMetadata i data (Some e) ∈ out_trace o ->
  (exists t,
     out_tasks o !! i = Some t
     /\ failure r t = None
     /\ forall fs', snd (restore h r (g_src t) (g_dst t) fs') = None)
  /\ (~ Exists (destination_fails r) (out_tasks o) -> result o = Ret None)
  /\ (forall es, restore_failed o es ->
        Forall (fun err => exists t, t ∈ out_tasks o /\ failure r t = Some err)
          es).
Proof.
  intros Hret Hin.
  destruct (write_event_task _ _ _ _ _ _ _ _ _ Hret Hin)
    as (t & written & Hi & Hses & _ & _).
  assert (restore_error r (g_src t) (g_dst t) = None) as Hok
    by (unfold restore_error; by rewrite Hses).
  split; [| split].
  - exists t. split; [done |]. split.
    + unfold failure. by rewrite Hok.
    + intros fs'. by rewrite restore_returns.
  - intros Hno.
    destruct (fan_out_result _ _ _ _ _ _ Hret) as (es & -> & Hperm).
    { intros Hnil. by rewrite Hnil in Hi. }
    assert (omap (failure r) (out_tasks o) = []) as Hnil.
    { apply omap_nil_iff. intros Hex. apply Hno.
      eapply Exists_impl; [exact Hex |]. intros t'. apply failure_is_Some. }
    rewrite Hnil in Hperm. apply Permutation_nil_r in Hperm. by subst es.
  - intros es Hfail.
    destruct (restore_failed_errs _ _ _ _ _ _ _ Hret Hfail) as [_ Hperm].
    apply Forall_forall. intros err Herr.
    rewrite Hperm in Herr. by apply list_elem_of_omap in Herr.
Qed.

Lemma metadata_failure_is_not_propagated_witness :
  exists o,
    Restore Examples.read_only
      (Examples.restorer_on (Examples.bucket Examples.objects))
      ["a"; "b"] ∅ (one_by_one 0 2) = Some o
    /\ (exists e, EvWriteMetadata 0 {| CacheSize := "1 B" |} (Some e)
                    ∈ out_trace o)
    /\ result o = Ret None.
Proof.
  eexists. split; [vm_compute; reflexivity |].
  split.
  - eexists. do 3 apply list_elem_of_further. apply list_elem_of_here.
  - refine (proj1 (proj2 (metadata_failure_is_not_propagated
              Examples.read_only
              (Examples.restorer_on (Examples.bucket Examples.objects))
              ["a"; "b"] ∅ (one_by_one 0 2) _ 0 {| CacheSize := "1 B" |}
              _ _ _)) _).
    + vm_compute; reflexivity.
    + do 3 apply list_elem_of_further. apply list_elem_of_here.
    + intros Hex. simpl in Hex.
      repeat (apply Exists_cons in Hex as [[? Hex] | Hex]; [discriminate |]).
      by apply Exists_nil in Hex.
Defined.

(** C2, as amended: the metadata artifact is written once by the goroutine
    of each destination whose extraction has succeeded, with the bytes of
    that destination, and not by a goroutine whose extraction failed, nor
    by the caller; each write comes before the [wg.Done] of its goroutine,
    so before [wg.Wait()] returns, whether other goroutines have failed or
    not. *)
Theorem metadata_written_by_each_task (h : Host) (r : restorer)
    (dsts : list string) (fs : files) (sched : list choice) (o : outcome) :
  Restore h r dsts fs sched = Some o ->
  (forall i,
     metadata_written i (out_trace o)
     = match out_tasks o !! i with
       | Some t =>
           match pipe_session r (g_src t) (g_dst t) with
           | (written, None) => [metadata_of h written]
           | (_, Some _) => []
           end
       | None => []
       end)
  /\ metadata_writes (caller_events (out_trace o)) = []
  /\ (forall i data res,
        EvWriteMetadata i data res ∈ out_trace o ->
        exists before after,
          out_trace o = before ++ EvWriteMetadata i data res :: after
          /\ EvDone i ∈ after).
Proof.
  intros Hret. split; [| split].
  - intros i. unfold metadata_written.
    destruct (out_tasks o !! i) as [t|] eqn:Hi.
    + pose proof (finished_task_events _ _ _ _ _ _ _ _ Hret Hi) as Hev.
      destruct (pipe_session r (g_src t) (g_dst t)) as [written [e|]].
      * destruct Hev as (e' & _ & ->). reflexivity.
      * destruct Hev as (res & ->). reflexivity.
    + destruct (Restore_sound _ _ _ _ _ _ Hret) as (_ & _ & _ & _ & Ht).
      specialize (Ht i). rewrite Hi in Ht. by rewrite Ht.
  - destruct (Restore_sound _ _ _ _ _ _ Hret) as (_ & _ & _ & -> & _).
    pose proof (Restore_plan_caller h r dsts) as Hc.
    unfold metadata_writes.
    induction Hc as [|ev evs Hev _ IH]; [done |].
    destruct ev; try discriminate. exact IH.
  - intros i data res Hin.
    destruct (write_event_task _ _ _ _ _ _ _ _ _ Hret Hin)
      as (t & written & _ & _ & _ & Hev).
    unfold events_of in Hev.
    change (session_events i t ++ [EvWriteMetadata i data res; EvDone i])
      with (session_events i t ++ EvWriteMetadata i data res :: [EvDone i])
      in Hev.
    apply filter_split in Hev as (before & after & Htr & _ & Hafter).
    exists before, after. split; [done |].
    apply (events_of_elem i). unfold events_of. rewrite Hafter.
    apply list_elem_of_here.
Qed.

Lemma metadata_written_by_each_task_witness :
  exists o,
    Restore Examples.linux (Examples.restorer_on (Examples.bucket Examples.objects))
      ["a"; "zz"; "b"] ∅ (all_at_once 3) = Some o
    /\ metadata_written 0 (out_trace o) = [{| CacheSize := "1 B" |}]
    /\ metadata_written 1 (out_trace o) = []
    /\ metadata_written 2 (out_trace o) = [{| CacheSize := "2 B" |}].
Proof.
  eexists. split; [vm_compute; reflexivity |].
  match goal with
  | |- context [out_trace ?o] =>
      destruct (metadata_written_by_each_task Examples.linux
                  (Examples.restorer_on (Examples.bucket Examples.objects))
                  ["a"; "zz"; "b"] ∅ (all_at_once 3) o)
        as (Hw & _ & _); [vm_compute; reflexivity |]
  end.
  rewrite !Hw. repeat split.
Defined.

(** C2, as stated, fails for a call with three destinations, the second of
    which is not in the store: the artifact is written twice, by the first
    and by the third goroutine, while [Restore] returns an error; and what
    it holds in the end is the size of the third destination, two bytes,
    not the three bytes restored in all. *)
Lemma metadata_written_twice_despite_failure :
  exists o,
    Restore Examples.linux (Examples.restorer_on (Examples.bucket Examples.objects))
      ["a"; "zz"; "b"] ∅ (all_at_once 3) = Some o
    /\ metadata_writes (out_trace o)
       = [{| CacheSize := "1 B" |}; {| CacheSize := "2 B" |}]
    /\ returns_error o
    /\ out_files o !! PLUGIN_CACHE_INTEL_FILE_NAME = Some "CacheSize: 2 B"
    /\ metadata_of Examples.linux (1 + 2) = {| CacheSize := "3 B" |}
    /\ ~ written_once_on_success o.
Proof.
  eexists. split; [vm_compute; reflexivity |].
  split; [reflexivity |]. split; [by eexists |].
  split; [by vm_compute |]. split; [reflexivity |].
  intros [Hlen _]. simpl in Hlen. lia.
Qed.

(** ** The destinations and sources of the goroutines *)

(** The goroutine of the [i]-th destination of the loop, and its first
    events. *)
Lemma target_task (h : Host) (r : restorer) (dsts : list string) (fs : files)
    (sched : list choice) (o : outcome) (evs : list event)
    (namespace key : string) (dsts' : list string) (i : nat) (dst : string) :
  Restore_plan h r dsts = (evs, FanOut namespace key dsts') ->
  Restore h r dsts fs sched = Some o ->
  dsts' !! i = Some dst ->
  let src := filepath.Join (GOOS h) [namespace; key; dst] in
  out_tasks o !! i = Some {| g_src := src; g_dst := dst; g_at := Finished |}
  /\ EvGo i src dst ∈ out_trace o
  /\ EvGet i src ∈ out_trace o
  /\ EvExtract i dst ∈ out_trace o.
Proof.
  intros Hplan Hret Hi. simpl.
  destruct (Restore_sound _ _ _ _ _ _ Hret) as (Hd & Hfin & Hres & _ & _).
  unfold targets in Hd. rewrite Hplan in Hd, Hres. simpl in Hd, Hres.
  destruct Hres as [Hsrc _].
  rewrite <- Hd, list_lookup_fmap in Hi.
  destruct (out_tasks o !! i) as [t|] eqn:Ht; [| done].
  injection Hi as Hdst.
  pose proof (Forall_lookup_1 _ _ _ _ Hfin Ht) as Hat.
  pose proof (Forall_lookup_1 _ _ _ _ Hsrc Ht) as Hs.
  simpl in Hat, Hs. unfold source in Hs.
  assert (t = {| g_src := filepath.Join (GOOS h) [namespace; key; dst];
                 g_dst := dst; g_at := Finished |}) as ->
    by (destruct t as [src0 dst0 at0]; cbn [g_src g_dst g_at] in *;
        subst; reflexivity).
  split; [done |].
  pose proof (finished_task_events _ _ _ _ _ _ _ _ Hret Ht) as Hev.
  simpl in Hev.
  assert (exists rest, events_of i (out_trace o)
            = session_events i
                {| g_src := filepath.Join (GOOS h) [namespace; key; dst];
                   g_dst := dst; g_at := Finished |} ++ rest)
    as [rest Hrest].
  { destruct (pipe_session r _ dst) as [written [e|]].
    - destruct Hev as (e' & _ & ->). by eexists.
    - destruct Hev as (res & ->). by eexists. }
  repeat split; apply (events_of_elem i); rewrite Hrest; simpl.
  - apply list_elem_of_here.
  - apply list_elem_of_further, list_elem_of_here.
  - do 2 apply list_elem_of_further. apply list_elem_of_here.
Qed.






(** Each destination of the loop is a destination of the caller, or comes
    from an entry listed by the call of [List]. *)
Lemma targets_origin (h : Host) (r : restorer) (dsts : list string) :
  Forall (fun dst =>
            dst ∈ dsts
            \/ exists prefix e,
                 EvList prefix ∈ fst (Restore_plan h r dsts)
                 /\ e ∈ fst (List (s r) prefix)
                 /\ dst = discovered h r prefix e)
    (targets h r dsts).
Proof.
  unfold targets, Restore_plan.
  destruct (generateKey r []) as [[key [err|]]|msg]; simpl; [done | | done].
  destruct dsts as [|dst dsts]; simpl.
  - destruct (List (s r) _) as [entries [e|]] eqn:HList; simpl.
    + by destruct (is_ErrNotImplemented e).
    + destruct (failIfKeyNotPresent r && _); simpl; [done |].
      apply Forall_forall. intros dst (e & -> & He)%list_elem_of_fmap.
      right. eexists _, e. rewrite HList. split; [apply list_elem_of_here |].
      by split.
  - apply Forall_forall. intros d Hd. by left.
Qed.

Lemma caller_events_sub (ev : event) (tr : list event) :
  ev ∈ caller_events tr -> ev ∈ tr.
Proof.
  rewrite !list_elem_of_In. unfold caller_events. rewrite filter_In. tauto.
Qed.

(** C8, as amended: a destination taken from a listed entry is empty
    exactly when the path of the entry is empty or is the prefix that is
    trimmed; so when the caller gives no empty destination and the call of
    [List] returns no such entry, no goroutine has an empty destination. *)
Theorem destinations_not_empty (h : Host) (r : restorer) (dsts : list string)
    (fs : files) (sched : list choice) (o : outcome) :
  Restore h r dsts fs sched = Some o ->
  Forall (fun dst => dst <> "") dsts ->
  (forall prefix,
     EvList prefix ∈ out_trace o ->
     Forall (fun e => Path e <> "" /\ Path e <> trimmed_prefix h r prefix)
       (fst (List (s r) prefix))) ->
  (forall prefix e,
     discovered h r prefix e = ""
     <-> Path e = "" \/ Path e = trimmed_prefix h r prefix)
  /\ Forall (fun t => g_dst t <> "") (out_tasks o).
Proof.
  intros Hret Hdsts Hlisted.
  split; [intros prefix e; apply TrimPrefix_empty |].
  destruct (Restore_sound _ _ _ _ _ _ Hret) as (Hd & _ & _ & Hc & _).
  assert (Forall (fun dst => dst <> "") (g_dst <$> out_tasks o)) as Hall;
    [| apply Forall_forall; intros t Ht;
       apply (proj1 (Forall_forall _ _) Hall (g_dst t));
       by apply list_elem_of_fmap_2].
  rewrite Hd.
  eapply Forall_impl; [apply targets_origin |].
  intros dst [Hin | (prefix & e & Hev & He & ->)].
  - by apply (proj1 (Forall_forall _ _) Hdsts).
  - rewrite <- Hc in Hev. apply caller_events_sub in Hev.
    pose proof (proj1 (Forall_forall _ _) (Hlisted prefix Hev) e He)
      as [Hne Hnp].
    intros [? | ?]%TrimPrefix_empty; done.
Qed.

Lemma destinations_not_empty_witness :
  exists o,
    Restore Examples.linux (Examples.restorer_on (Examples.bucket Examples.objects))
      [] ∅ (all_at_once 2) = Some o
    /\ (g_dst <$> out_tasks o) = ["a"; "b"]
    /\ Forall (fun t => g_dst t <> "") (out_tasks o).
Proof.
  eexists. split; [vm_compute; reflexivity |].
  split; [reflexivity |].
  refine (proj2 (destinations_not_empty Examples.linux
            (Examples.restorer_on (Examples.bucket Examples.objects))
            [] ∅ (all_at_once 2) _ _ _ _)).
  - vm_compute; reflexivity.
  - constructor.
  - intros prefix Hin. simpl in Hin. elem_cases Hin; try discriminate.
    injection Hin as ->. vm_compute.
    repeat constructor; discriminate.
Defined.

(** C8, as stated, fails for a caller that gives the empty destination,
    and for a store that lists an entry whose path is the prefix itself:
    the goroutine is started with the empty destination. *)
Lemma empty_destination_passed_on :
  (exists o,
     Restore Examples.linux (Examples.restorer_on (Examples.bucket Examples.objects))
       [""] ∅ (all_at_once 1) = Some o
     /\ EvGo 0 "repo/k" "" ∈ out_trace o
     /\ ~ Forall (fun t => g_dst t <> "") (out_tasks o))
  /\ (exists o,
        Restore Examples.linux
          (Examples.restorer_on (Examples.bucket [("repo/k/", "")]))
          [] ∅ (all_at_once 1) = Some o
        /\ EvGo 0 "repo/k" "" ∈ out_trace o
        /\ ~ Forall (fun t => g_dst t <> "") (out_tasks o)).
Proof.
  split.
  - eexists. split; [vm_compute; reflexivity |].
    split; [apply list_elem_of_here |].
    intros Hall. by inversion Hall.
  - eexists. split; [vm_compute; reflexivity |].
    split; [apply list_elem_of_further, list_elem_of_here |].
    intros Hall. by inversion Hall.
Qed.

(** ** The separator of remote paths *)

Section Bytes.

Variable c : ascii.


Lemma without_cons (c' : ascii) (x : string) :
  without c (String c' x) <-> c' <> c /\ without c x.
Proof.
  unfold without. simpl. rewrite orb_false_iff, Ascii.eqb_neq. tauto.
Qed.









End Bytes.

Lemma not_windows (h : Host) :
  GOOS h <> "windows" ->
  filepath.Separator (GOOS h) = "/"%char /\ getSeparator h = "/".
Proof.
  intros Hos%String.eqb_neq. unfold filepath.Separator, filepath.windows,
    getSeparator. by rewrite Hos.
Qed.






(** ** More on key resolution *)

(** When [generateKey] returns an error, the key it returns is empty. *)
Theorem generateKey_error_empty_key (r : restorer) (parts : list string)
    (key : string) (e : external_error) :
  generateKey r parts = Ret (key, Some e) -> key = "".
Proof.
  unfold generateKey. destruct (g r) as [gen|]; [| done].
  destruct (Generate gen parts) as [k [e1|]]; [| done].
  destruct (fg r) as [fgen|]; [| by intros [= <- _]].
  destruct (Generate fgen parts) as [k' [e2|]]; [by intros [= <- _] | done].
Qed.

Lemma generateKey_error_empty_key_witness :
  exists key,
    generateKey
      (NewRestorer (Examples.bucket []) Examples.plain
         (Some {| Generate := fun _ => ("half", Some (ErrOther "no commit")) |})
         None "repo" false true "" "") ["a"]
    = Ret (key, Some (ErrOther "no commit"))
    /\ key = "".
Proof.
  eexists. split; [reflexivity |].
  apply (generateKey_error_empty_key
    (NewRestorer (Examples.bucket []) Examples.plain
       (Some {| Generate := fun _ => ("half", Some (ErrOther "no commit")) |})
       None "repo" false true "" "") ["a"] _ (ErrOther "no commit")).
  reflexivity.
Defined.

(** ** [Restore] before the loop *)

(** When key generation fails, [Restore] returns "generate key" wrapping
    the error of the generator that was asked last (the fallback's when one
    is configured: the primary's error is then dropped; the primary's
    otherwise), under every schedule, and has called neither the store nor
    the archive, started no goroutine and written no file. *)
Theorem Restore_key_failure (h : Host) (r : restorer) (dsts : list string)
    (fs : files) (sched : list choice) (gen : Generator) (k : string)
    (e : external_error) :
  g r = Some gen ->
  Generate gen [] = (k, Some e) ->
  (forall fgen, fg r = Some fgen -> generator_fails fgen []) ->
  Restore h r dsts fs sched
  = Some {| result :=
              Ret (Some (Errorf "generate key, %w"
                     [inr (External
                             match fg r with
                             | Some fgen => default e (snd (Generate fgen []))
                             | None => e
                             end)]));
            out_tasks := []; out_files := fs; out_trace := [] |}.
Proof.
  intros Hg Hgen Hfg. unfold Restore, Restore_plan, generateKey.
  rewrite Hg, Hgen. destruct (fg r) as [fgen|]; [| done].
  destruct (Hfg fgen eq_refl) as [e' He'].
  destruct (Generate fgen []) as [k' err']. simpl in He'. by subst err'.
Qed.

Lemma Restore_key_failure_witness :
  result <$>
    Restore Examples.linux
      (NewRestorer (Examples.bucket Examples.objects) Examples.plain
         (Some (Examples.no_key "no commit")) (Some (Examples.no_key "no branch"))
         "repo" false true "" "")
      ["a"] ∅ (all_at_once 1)
  = Some (Ret (Some (Errorf "generate key, %w"
                       [inr (External (ErrOther "no branch"))]))).
Proof.
  rewrite (Restore_key_failure Examples.linux
    (NewRestorer (Examples.bucket Examples.objects) Examples.plain
       (Some (Examples.no_key "no commit")) (Some (Examples.no_key "no branch"))
       "repo" false true "" "")
    ["a"] ∅ (all_at_once 1) (Examples.no_key "no commit") ""
    (ErrOther "no commit") eq_refl eq_refl).
  - reflexivity.
  - intros fgen [= <-]. by eexists.
Defined.




(** When [List] fails with an error that is not the sentinel, [Restore]
    returns that very error, not wrapped, under every schedule, whatever
    [List] returns beside it and whatever [failIfKeyNotPresent] is; it
    has called [List] and nothing else. *)
Theorem Restore_list_failure (h : Host) (r : restorer) (fs : files)
    (sched : list choice) (key : string) (entries : list FileEntry)
    (e : external_error) :
  generateKey r [] = Ret (key, None) ->
  List (s r) (list_prefix h r (cleaned_namespace h r) key)
  = (entries, Some e) ->
  e <> ErrNotImplemented ->
  Restore h r [] fs sched
  = Some {| result := Ret (Some (External e)); out_tasks := [];
            out_files := fs;
            out_trace :=
              [EvList (list_prefix h r (cleaned_namespace h r) key)] |}.
Proof.
  intros Hkey HList He. unfold Restore, Restore_plan. rewrite Hkey, HList.
  by destruct e.
Qed.

Lemma Restore_list_failure_witness :
  result <$>
    Restore Examples.linux
      (Examples.restorer_on
         {| List := fun _ => ([], Some (ErrOther "access denied"));
            Get := Examples.get_object Examples.objects |})
      [] ∅ (all_at_once 1)
  = Some (Ret (Some (External (ErrOther "access denied")))).
Proof.
  rewrite (Restore_list_failure Examples.linux
    (Examples.restorer_on
       {| List := fun _ => ([], Some (ErrOther "access denied"));
          Get := Examples.get_object Examples.objects |})
    ∅ (all_at_once 1) "k" [] (ErrOther "access denied")).
  - reflexivity.
  - reflexivity.
  - reflexivity.
  - discriminate.
Defined.

(** ** The goroutines of a call *)

(** The goroutines of a call that has returned are those of the
    destinations of the loop, in order. *)
Lemma tasks_determined (h : Host) (r : restorer) (dsts : list string)
    (fs : files) (sched : list choice) (o : outcome) (evs : list event)
    (namespace key : string) (dsts' : list string) :
  Restore_plan h r dsts = (evs, FanOut namespace key dsts') ->
  Restore h r dsts fs sched = Some o ->
  out_tasks o = finished_task h namespace key <$> dsts'.
Proof.
  intros Hplan Hret.
  destruct (Restore_sound _ _ _ _ _ _ Hret) as (Hd & Hfin & Hres & _ & _).
  unfold targets in Hd. rewrite Hplan in Hd, Hres. simpl in Hd, Hres.
  destruct Hres as [Hsrc _]. rewrite <- Hd, <- list_fmap_compose.
  rewrite <- (list_fmap_id (out_tasks o)) at 1.
  apply Forall_fmap_ext. apply Forall_forall. intros t Ht.
  pose proof (proj1 (Forall_forall _ _) Hfin t Ht) as Hat.
  pose proof (proj1 (Forall_forall _ _) Hsrc t Ht) as Hs.
  destruct t as [src dst at_]. simpl in *. unfold finished_task, source in *.
  simpl. by subst.
Qed.

(** With destinations given, [Restore] does not call [List]: it starts one
    goroutine for each of them, in order, with the join of the cleaned
    namespace, the key and the destination as its source, whatever the
    store would list. *)
Theorem Restore_explicit_destinations (h : Host) (r : restorer)
    (dsts : list string) (fs : files) (sched : list choice) (o : outcome)
    (key : string) :
  dsts <> [] ->
  generateKey r [] = Ret (key, None) ->
  Restore h r dsts fs sched = Some o ->
  out_tasks o = finished_task h (cleaned_namespace h r) key <$> dsts
  /\ caller_events (out_trace o) = []
  /\ forall prefix, EvList prefix ∉ out_trace o.
Proof.
  intros Hne Hkey Hret.
  assert (Restore_plan h r dsts
          = ([], FanOut (cleaned_namespace h r) key dsts)) as Hplan.
  { unfold Restore_plan. rewrite Hkey. by destruct dsts. }
  split; [by eapply tasks_determined |].
  destruct (Restore_sound _ _ _ _ _ _ Hret) as (_ & _ & _ & Hc & _).
  rewrite Hplan in Hc. simpl in Hc. split; [done |].
  intros prefix Hin.
  apply (caller_events_elem (EvList prefix) _ eq_refl) in Hin.
  rewrite Hc in Hin. by apply elem_of_nil in Hin.
Qed.

Lemma Restore_explicit_destinations_witness :
  exists o,
    Restore Examples.linux (Examples.restorer_on (Examples.bucket Examples.objects))
      ["b"; "a"] ∅ (all_at_once 2) = Some o
    /\ out_tasks o
       = [{| g_src := "repo/k/b"; g_dst := "b"; g_at := Finished |};
          {| g_src := "repo/k/a"; g_dst := "a"; g_at := Finished |}].
Proof.
  eexists. split; [vm_compute; reflexivity |].
  exact (proj1 (Restore_explicit_destinations Examples.linux
           (Examples.restorer_on (Examples.bucket Examples.objects))
           ["b"; "a"] ∅ (all_at_once 2) _ "k"
           ltac:(discriminate) eq_refl eq_refl)).
Defined.

(** With no destination given and a listing that succeeds (and is not
    empty when [failIfKeyNotPresent] is on), [Restore] starts one
    goroutine for each listed entry, in the order of the listing, with
    the path of the entry less the trimmed prefix as its destination. *)
Theorem Restore_discovered_destinations (h : Host) (r : restorer)
    (fs : files) (sched : list choice) (o : outcome) (key : string)
    (entries : list FileEntry) :
  generateKey r [] = Ret (key, None) ->
  List (s r) (list_prefix h r (cleaned_namespace h r) key) = (entries, None) ->
  failIfKeyNotPresent r = false \/ entries <> [] ->
  Restore h r [] fs sched = Some o ->
  out_tasks o
  = (fun e =>
       finished_task h (cleaned_namespace h r) key
         (strings.TrimPrefix (Path e)
            (trimmed_prefix h r
               (list_prefix h r (cleaned_namespace h r) key))))
    <$> entries.
Proof.
  intros Hkey HList Hsome Hret.
  assert (Restore_plan h r []
          = ([EvList (list_prefix h r (cleaned_namespace h r) key)],
             FanOut (cleaned_namespace h r) key
               (discovered h r (list_prefix h r (cleaned_namespace h r) key)
                  <$> entries))) as Hplan.
  { unfold Restore_plan. rewrite Hkey, HList.
    destruct Hsome as [-> | Hne]; [done |].
    destruct entries; [done |]. simpl. by rewrite andb_false_r. }
  rewrite (tasks_determined _ _ _ _ _ _ _ _ _ _ Hplan Hret).
  by rewrite <- list_fmap_compose.
Qed.

Lemma Restore_discovered_destinations_witness :
  exists o,
    Restore Examples.linux (Examples.restorer_on (Examples.bucket Examples.objects))
      [] ∅ (one_by_one 0 2) = Some o
    /\ out_tasks o
       = [{| g_src := "repo/k/a"; g_dst := "a"; g_at := Finished |};
          {| g_src := "repo/k/b"; g_dst := "b"; g_at := Finished |}].
Proof.
  eexists. split; [vm_compute; reflexivity |].
  exact (Restore_discovered_destinations Examples.linux
           (Examples.restorer_on (Examples.bucket Examples.objects))
           ∅ (one_by_one 0 2) _ "k"
           (Examples.entry_of <$> Examples.objects)
           eq_refl eq_refl ltac:(by left) eq_refl).
Defined.




(** ** What the events account for *)

Lemma caller_events_silent (evs : list event) :
  Forall (fun ev => task_of ev = None) evs ->
  omap fetched_source evs = []
  /\ omap extracted_destination evs = []
  /\ omap added_error evs = []
  /\ metadata_writes evs = [].
Proof.
  unfold metadata_writes.
  induction 1 as [|ev evs Hev _ IH]; [done |].
  destruct ev; try discriminate. exact IH.
Qed.

Section Ledger.

Variables (h : Host) (r : restorer) (namespace key : string) (fs : files).

Lemma ledger_init (dsts : list string) (evs : list event) :
  Forall (fun ev => task_of ev = None) evs -> ledger h fs (init dsts fs evs).
Proof.
  intros (Hg & He & Ha & Hw)%caller_events_silent.
  constructor; simpl; rewrite ?Hg, ?He, ?Ha, ?Hw; done.
Qed.

Lemma ledger_exec (c : choice) (st st' : state) :
  ledger h fs st -> exec h r namespace key c st = Some st' -> ledger h fs st'.
Proof.
  intros [Hg He Ha Hf]. destruct c as [|i]; simpl.
  - unfold loop. destruct (st_todo st) as [|dst rest]; [done |].
    intros [= <-]. constructor; simpl;
      rewrite ?omap_app; simpl; rewrite ?app_nil_r; try done.
    unfold metadata_writes. rewrite omap_app. simpl. by rewrite app_nil_r.
  - unfold step_task.
    destruct (st_pool st !! i) as [t|] eqn:Hi; [| done].
    destruct (g_at t) as [|written|err|] eqn:Hpos; [| | | done].
    + destruct (pipe_session r (g_src t) (g_dst t)) as [written err].
      intros [= <-]. constructor; simpl.
      * rewrite omap_app. simpl. rewrite Hg. symmetry.
        apply (omap_insert_new _ _ _ t); [done | |];
          unfold past_session; simpl; rewrite ?Hpos; by destruct err.
      * rewrite omap_app. simpl. rewrite He. symmetry.
        apply (omap_insert_new _ _ _ t); [done | |];
          unfold past_session; simpl; rewrite ?Hpos; by destruct err.
      * rewrite omap_app. simpl. by rewrite app_nil_r.
      * unfold metadata_writes. rewrite omap_app. simpl. by rewrite app_nil_r.
    + destruct (writeCacheMetadata h (metadata_of h written)
                  PLUGIN_CACHE_INTEL_FILE_NAME (st_files st))
        as [fs' res] eqn:Hw.
      intros [= <-]. constructor; simpl.
      * rewrite omap_app. simpl. rewrite app_nil_r, Hg.
        by rewrite (omap_insert_same _ _ _ t)
          by (done || (unfold past_session; simpl; by rewrite Hpos)).
      * rewrite omap_app. simpl. rewrite app_nil_r, He.
        by rewrite (omap_insert_same _ _ _ t)
          by (done || (unfold past_session; simpl; by rewrite Hpos)).
      * rewrite omap_app. simpl. by rewrite app_nil_r.
      * unfold metadata_writes, after_writes. rewrite omap_app, foldl_app.
        simpl. fold (metadata_writes (st_trace st)).
        fold (after_writes h fs (metadata_writes (st_trace st))).
        by rewrite <- Hf, Hw.
    + intros [= <-]. constructor; simpl.
      * rewrite omap_app. simpl. rewrite app_nil_r, Hg.
        by rewrite (omap_insert_same _ _ _ t)
          by (done || (unfold past_session; simpl; by rewrite Hpos)).
      * rewrite omap_app. simpl. rewrite app_nil_r, He.
        by rewrite (omap_insert_same _ _ _ t)
          by (done || (unfold past_session; simpl; by rewrite Hpos)).
      * rewrite omap_app. simpl. by rewrite Ha.
      * unfold metadata_writes. rewrite omap_app. simpl. by rewrite app_nil_r.
Qed.

Lemma ledger_run (sched : list choice) (st : state) :
  ledger h fs st -> ledger h fs (run h r namespace key sched st).
Proof.
  revert st. induction sched as [|c sched IH]; intros st Hst; [done |].
  simpl. apply IH.
  destruct (exec h r namespace key c st) as [st'|] eqn:Hc; simpl;
    eauto using ledger_exec.
Qed.

End Ledger.

Lemma past_session_finished (pool : list goroutine) (f : goroutine -> string) :
  Forall (fun t => g_at t = Finished) pool ->
  omap (fun t => if past_session t then Some (f t) else None) pool = f <$> pool.
Proof.
  induction 1 as [|t pool Ht _ IH]; [done |].
  change (omap ?f (t :: pool))
    with (match f t with Some e => e :: omap f pool | None => omap f pool end).
  rewrite IH. unfold past_session. by rewrite Ht.
Qed.

(** The ledger of a call that has returned. *)
Lemma Restore_ledger (h : Host) (r : restorer) (dsts : list string)
    (fs : files) (sched : list choice) (o : outcome) :
  Restore h r dsts fs sched = Some o ->
  omap fetched_source (out_trace o) ≡ₚ g_src <$> out_tasks o
  /\ omap extracted_destination (out_trace o) ≡ₚ g_dst <$> out_tasks o
  /\ (forall es, restore_failed o es -> es = omap added_error (out_trace o))
  /\ out_files o = after_writes h fs (metadata_writes (out_trace o)).
Proof.
  intros Hret.
  pose proof (Restore_plan_caller h r dsts) as Hc.
  destruct (Restore_plan h r dsts) as [evs [res | namespace key dsts']] eqn:Hplan;
    simpl in Hc.
  - destruct (caller_events_silent evs Hc) as (Hg & He & Ha & Hw).
    pose proof (Restore_early _ _ _ _ _ _ _ _ Hplan Hret) as ->. simpl.
    rewrite Hg, He, Hw. repeat split; try done.
    intros es Hes. exfalso.
    by eapply early_exit_not_restore_failed.
  - revert Hret. unfold Restore. rewrite Hplan.
    destruct (joined _) eqn:Hj; [| done]. intros [= <-]. simpl.
    apply joined_spec in Hj as [_ Hfin].
    destruct (ledger_run h r namespace key fs sched _
                (ledger_init h fs dsts' evs Hc)) as [Hg He Ha Hf].
    rewrite !past_session_finished in Hg, He by done.
    repeat split; try done.
    intros es Hes. unfold restore_failed in Hes. simpl in Hes.
    injection Hes as Hes. apply Restore_end_failed in Hes as [_ ->]. done.
Qed.



(** The errors in the "restore failed" error are those of the calls of
    [errs.Add], in the order in which the goroutines made them. *)
Theorem Restore_errors_in_order_added (h : Host) (r : restorer)
    (dsts : list string) (fs : files) (sched : list choice) (o : outcome)
    (es : list error) :
  Restore h r dsts fs sched = Some o ->
  restore_failed o es ->
  es = omap added_error (out_trace o).
Proof.
  intros Hret Hes.
  destruct (Restore_ledger _ _ _ _ _ _ Hret) as (_ & _ & Ha & _). by apply Ha.
Qed.

Lemma Restore_errors_in_order_added_witness :
  exists o e1 e2,
    Restore Examples.linux (Examples.restorer_on (Examples.bucket Examples.objects))
      ["y"; "a"; "z"] ∅
      [Loop; Loop; Loop; Run 2; Run 0; Run 1; Run 2; Run 1; Run 0] = Some o
    /\ restore_failed o [e1; e2]
    /\ omap added_error (out_trace o) = [e1; e2]
    /\ (exists w, e1 = Errorf "download from <%s> to <%s>, %w"
                         [inl "repo/k/z"; inl "z"; inr w]).
Proof.
  eexists. eexists. eexists. split; [vm_compute; reflexivity |].
  split; [reflexivity |]. split; [| by eexists].
  symmetry.
  exact (Restore_errors_in_order_added Examples.linux
           (Examples.restorer_on (Examples.bucket Examples.objects))
           ["y"; "a"; "z"] ∅
           [Loop; Loop; Loop; Run 2; Run 0; Run 1; Run 2; Run 1; Run 0]
           _ _ eq_refl eq_refl).
Defined.







(** ** The prefix given to [List] *)

Lemma length_app' (x y : string) :
  String.length (x +:+ y) = String.length x + String.length y.
Proof. induction x; rewrite ?app_nil, ?app_cons; simpl; auto. Qed.

Lemma HasSuffix_app (x suffix : string) :
  strings.HasSuffix (x +:+ suffix) suffix = true.
Proof.
  unfold strings.HasSuffix. rewrite length_app'.
  replace (String.length x + String.length suffix - String.length suffix)
    with (String.length x) by lia.
  rewrite drop_app, String.eqb_refl, andb_true_r.
  apply Nat.leb_le. lia.
Qed.

(** With [enableCacheKeySeparator] on, the prefix given to [List] ends
    with the separator of the host; with it off, that prefix is the join
    of the cleaned namespace and the key as it is. *)
Theorem list_prefix_ends_with_separator (h : Host) (r : restorer)
    (dsts : list string) (fs : files) (sched : list choice) (o : outcome)
    (prefix : string) :
  Restore h r dsts fs sched = Some o ->
  EvList prefix ∈ out_trace o ->
  if enableCacheKeySeparator r
  then strings.HasSuffix prefix (getSeparator h) = true
  else exists key,
         generateKey r [] = Ret (key, None)
         /\ prefix = filepath.Join (GOOS h) [cleaned_namespace h r; key].
Proof.
  intros Hret Hin.
  destruct (Restore_listed _ _ _ _ _ _ _ Hret Hin) as (_ & key & Hkey & -> & _).
  unfold list_prefix. destruct (enableCacheKeySeparator r).
  - rewrite andb_true_r.
    destruct (strings.HasSuffix
                (filepath.Join (GOOS h) [cleaned_namespace h r; key])
                (getSeparator h)) eqn:Hs; simpl; [done |].
    apply HasSuffix_app.
  - rewrite andb_false_r. by exists key.
Qed.

Lemma list_prefix_ends_with_separator_witness :
  exists o,
    Restore Examples.windows
      (Examples.restorer_on (Examples.bucket Examples.objects))
      [] ∅ (all_at_once 1) = Some o
    /\ EvList "repo\k\" ∈ out_trace o
    /\ strings.HasSuffix "repo\k\" "\" = true.
Proof.
  eexists. split; [vm_compute; reflexivity |].
  split; [apply list_elem_of_here |].
  exact (list_prefix_ends_with_separator Examples.windows
           (Examples.restorer_on (Examples.bucket Examples.objects))
           [] ∅ (all_at_once 1) _ "repo\k\" eq_refl
           ltac:(apply list_elem_of_here)).
Defined.

(** ** The namespace *)

Lemma elements_not_nil (goos : string) (path : string) :
  filepath.elements goos path <> [].
Proof.
  destruct path as [|c path]; simpl; [done |].
  destruct (filepath.IsPathSeparator goos c); [done |].
  by destruct (filepath.elements goos path).
Qed.

(** The elements of two paths put together with a separator are the
    elements of the first and then those of the second. *)
Lemma elements_app (goos : string) (x y : string) (c : ascii) :
  filepath.IsPathSeparator goos c = true ->
  filepath.elements goos (x +:+ String c y)
  = filepath.elements goos x ++ filepath.elements goos y.
Proof.
  intros Hc. induction x as [|c' x IH]; rewrite ?app_nil, ?app_cons; simpl.
  - by rewrite Hc.
  - rewrite IH. destruct (filepath.IsPathSeparator goos c'); [done |].
    pose proof (elements_not_nil goos x) as Hne.
    by destruct (filepath.elements goos x).
Qed.

Lemma rooted_app (goos : string) (x y : string) :
  x <> "" -> filepath.rooted goos (x +:+ y) = filepath.rooted goos x.
Proof. by destruct x. Qed.

Lemma slash_separates (goos : string) :
  filepath.IsPathSeparator goos "/" = true.
Proof. reflexivity. Qed.









(** ** From a listed path back to the source *)

Lemma last_byte_app (x y : string) :
  last_byte (x +:+ y)
  = match last_byte y with
    | Some c => Some c
    | None => last_byte x
    end.
Proof.
  induction x as [|c x IH]; rewrite ?app_nil, ?app_cons; simpl.
  - by destruct (last_byte y).
  - rewrite IH. by destruct (last_byte y), (last_byte x).
Qed.

Lemma last_byte_None (x : string) : last_byte x = None <-> x = "".
Proof.
  destruct x as [|c x]; simpl; [done |].
  by destruct (last_byte x).
Qed.

Lemma last_byte_occurs (x : string) (c : ascii) :
  last_byte x = Some c -> has_byte c x = true.
Proof.
  induction x as [|c' x IH]; simpl; [done |].
  destruct (last_byte x) as [c''|].
  - intros [= ->]. rewrite IH by done. apply orb_true_r.
  - intros [= ->]. by rewrite Ascii.eqb_refl.
Qed.

Lemma drop_is_suffix (n : nat) (x : string) :
  exists before, x = before +:+ strings.drop n x.
Proof.
  revert x. induction n as [|n IH]; intros x.
  - by exists "".
  - destruct x as [|c x]; simpl; [by exists "" |].
    destruct (IH x) as [before Hx].
    exists (String c before). rewrite app_cons. congruence.
Qed.

Lemma HasSuffix_last_byte (x : string) (c : ascii) :
  strings.HasSuffix x (String c "") = true -> last_byte x = Some c.
Proof.
  unfold strings.HasSuffix. intros [_ Heq%String.eqb_eq]%andb_prop.
  destruct (drop_is_suffix (String.length x - String.length (String c "")) x)
    as [before Hx].
  rewrite Heq in Hx. rewrite Hx, last_byte_app. reflexivity.
Qed.

Lemma app_empty (x y : string) : x +:+ y = "" -> x = "" /\ y = "".
Proof. destruct x; [by rewrite app_nil | by rewrite app_cons]. Qed.

Lemma strings_Join_app (l1 l2 : list string) (sep : string) :
  l1 <> [] -> l2 <> [] ->
  strings.Join (l1 ++ l2) sep
  = strings.Join l1 sep +:+ sep +:+ strings.Join l2 sep.
Proof.
  intros Hl1 Hl2. induction l1 as [|e l1 IH]; [done |].
  destruct l1 as [|e' l1].
  - simpl. by destruct l2.
  - change ((e :: e' :: l1) ++ l2) with (e :: (e' :: l1) ++ l2).
    change (strings.Join (e :: (e' :: l1) ++ l2) sep)
      with (e +:+ sep +:+ strings.Join ((e' :: l1) ++ l2) sep).
    rewrite IH by done.
    change (strings.Join (e :: e' :: l1) sep)
      with (e +:+ sep +:+ strings.Join (e' :: l1) sep).
    by rewrite !app_assoc'.
Qed.

(** No element of a path holds a slash. *)
Lemma elements_without_slash (goos : string) (path : string) :
  Forall (without "/") (filepath.elements goos path).
Proof.
  induction path as [|c path IH]; simpl; [by repeat constructor |].
  destruct (filepath.IsPathSeparator goos c) eqn:Hc.
  - by constructor.
  - assert (c <> "/"%char) as Hne.
    { intros ->. by rewrite slash_separates in Hc. }
    destruct (filepath.elements goos path) as [|e es].
    + repeat constructor. by apply without_cons.
    + inversion IH; subst. constructor; [| done]. by apply without_cons.
Qed.

(** The elements [Clean] keeps are not empty and hold no slash. *)
Lemma cleaned_elements_solid (rooted : bool) (elems out : list string) :
  Forall (fun e => e <> "" /\ without "/" e) out ->
  Forall (without "/") elems ->
  Forall (fun e => e <> "" /\ without "/" e)
    (foldl (filepath.clean_element rooted) out elems).
Proof.
  intros Hout Helems. revert out Hout.
  induction Helems as [|e elems He _ IH]; intros out Hout; [done |].
  simpl. apply IH. unfold filepath.clean_element.
  destruct (String.eqb e "") eqn:Hempty; [done |].
  apply String.eqb_neq in Hempty.
  destruct (String.eqb e "."); [done |].
  destruct (String.eqb e ".."); [| by constructor].
  destruct out as [|top below].
  - destruct rooted; by repeat constructor.
  - destruct (String.eqb top ".."); [by constructor |].
    by inversion Hout.
Qed.

(** A joined list of such elements does not end with a slash. *)
Lemma strings_Join_last_byte (l : list string) :
  Forall (fun e => e <> "" /\ without "/" e) l ->
  l <> [] ->
  exists c, last_byte (strings.Join l "/") = Some c /\ c <> "/"%char.
Proof.
  intros Hl Hne. induction Hl as [|e l [He1 He2] Hl IH]; [done |].
  destruct l as [|e' l].
  - simpl. destruct (last_byte e) as [c|] eqn:Hlast.
    + exists c. split; [done |]. intros ->.
      apply last_byte_occurs in Hlast. unfold without in He2. congruence.
    + by apply last_byte_None in Hlast.
  - destruct (IH ltac:(done)) as (c & Hc & Hslash).
    exists c. split; [| done].
    change (strings.Join (e :: e' :: l) "/")
      with (e +:+ "/" +:+ strings.Join (e' :: l) "/").
    by rewrite !last_byte_app, Hc.
Qed.

(** The elements [Clean] keeps as they are stay, in order. *)
Lemma kept_elements_cleaned (rooted : bool) (elems out : list string) :
  forallb kept_element elems = true ->
  foldl (filepath.clean_element rooted) out elems = rev elems ++ out.
Proof.
  revert out. induction elems as [|e elems IH]; intros out; [done |].
  simpl. intros [He Helems]%andb_prop.
  rewrite IH by done. rewrite <- app_assoc. f_equal.
  unfold filepath.clean_element. unfold kept_element in He.
  destruct (String.eqb e ""); [done |].
  destruct (String.eqb e "."); [done |].
  by destruct (String.eqb e "..").
Qed.

Section Slashes.

Variable goos : string.
Hypothesis not_windows : filepath.windows goos = false.

Lemma separates_iff_slash (c : ascii) :
  filepath.IsPathSeparator goos c = Ascii.eqb c "/".
Proof.
  unfold filepath.IsPathSeparator. rewrite not_windows. apply orb_false_r.
Qed.

Lemma Separator_slash : filepath.Separator goos = "/"%char.
Proof. unfold filepath.Separator. by rewrite not_windows. Qed.

(** Joining the elements of a path with slashes gives the path back. *)
Lemma strings_Join_elements (path : string) :
  strings.Join (filepath.elements goos path) "/" = path.
Proof.
  induction path as [|c path IH]; [done |].
  cbn [filepath.elements]. rewrite separates_iff_slash.
  pose proof (elements_not_nil goos path) as Hne.
  destruct (filepath.elements goos path) as [|e es]; [done |].
  destruct (Ascii.eqb c "/") eqn:Hc.
  - apply Ascii.eqb_eq in Hc as ->.
    change (strings.Join ("" :: e :: es) "/")
      with ("" +:+ "/" +:+ strings.Join (e :: es) "/").
    by rewrite IH.
  - destruct es as [|e' es].
    + simpl in *. congruence.
    + change (strings.Join (String c e :: e' :: es) "/")
        with (String c (e +:+ "/" +:+ strings.Join (e' :: es) "/")).
      change (strings.Join (e :: e' :: es) "/")
        with (e +:+ "/" +:+ strings.Join (e' :: es) "/") in IH.
      congruence.
Qed.

(** The join of a namespace, a key and a plain path is that path under
    the join of the namespace and the key. *)
Lemma Join_under (ns key rest : string) :
  ns <> "" ->
  plain goos rest = true ->
  filepath.Join goos [ns; key] <> "." ->
  filepath.Join goos [ns; key; rest]
  = (if strings.HasSuffix (filepath.Join goos [ns; key]) "/"
     then filepath.Join goos [ns; key]
     else filepath.Join goos [ns; key] +:+ "/") +:+ rest.
Proof.
  intros Hns Hplain Hdot. revert Hdot.
  cbn [filepath.Join]. apply String.eqb_neq in Hns as Hns'. rewrite Hns'.
  rewrite Separator_slash.
  change (strings.Join [ns; key; rest] "/")
    with (ns +:+ "/" +:+ key +:+ "/" +:+ rest).
  change (strings.Join [ns; key] "/") with (ns +:+ "/" +:+ key).
  rewrite <- (app_assoc' ns "/" (key +:+ "/" +:+ rest)).
  rewrite <- (app_assoc' (ns +:+ "/") key ("/" +:+ rest)).
  rewrite (app_assoc' ns "/" key).
  set (x := ns +:+ "/" +:+ key).
  assert (x <> "") as Hx.
  { unfold x. intros [? _]%app_empty. done. }
  unfold filepath.Clean. rewrite Separator_slash.
  change (x +:+ "/" +:+ rest) with (x +:+ String "/" rest).
  rewrite (elements_app goos x rest "/" (slash_separates goos)).
  rewrite foldl_app, rooted_app by done.
  rewrite (kept_elements_cleaned _ (filepath.elements goos rest))
    by exact Hplain.
  rewrite rev_app_distr, rev_involutive.
  set (out := foldl (filepath.clean_element (filepath.rooted goos x)) []
                (filepath.elements goos x)).
  assert (Forall (fun e => e <> "" /\ without "/" e) (rev out)) as Hsolid.
  { apply Forall_rev, cleaned_elements_solid; [done |].
    apply elements_without_slash. }
  pose proof (elements_not_nil goos rest) as Hrest.
  destruct (rev out) as [|e es] eqn:Hout.
  - (* nothing is left of the namespace and the key but the root *)
    rewrite app_nil_l, strings_Join_elements. simpl.
    destruct (filepath.rooted goos x); simpl; [| done].
    intros _. by rewrite app_cons.
  - (* some element is left *)
    intros _.
    rewrite strings_Join_app, strings_Join_elements by done.
    destruct (strings_Join_last_byte (e :: es) Hsolid ltac:(done))
      as (c & Hc & Hslash).
    set (J := strings.Join (e :: es) "/") in *.
    set (root := if filepath.rooted goos x then "/" else "").
    assert (root +:+ J <> "") as Hne.
    { intros [_ HJ]%app_empty. rewrite HJ in Hc. done. }
    assert (root +:+ (J +:+ "/" +:+ rest) <> "") as Hne'.
    { intros [_ [HJ _]%app_empty]%app_empty. rewrite HJ in Hc. done. }
    apply String.eqb_neq in Hne as ->. apply String.eqb_neq in Hne' as ->.
    destruct (strings.HasSuffix (root +:+ J) "/") eqn:Hs.
    + apply HasSuffix_last_byte in Hs.
      rewrite last_byte_app, Hc in Hs. congruence.
    + by rewrite !app_assoc'.
Qed.

End Slashes.

Lemma Clean_not_empty (goos : string) (path : string) :
  filepath.Clean goos path <> "".
Proof.
  unfold filepath.Clean.
  destruct (String.eqb _ "") eqn:He; [done |]. by apply String.eqb_neq.
Qed.

(** On a host that is not Windows, with [enableCacheKeySeparator] on and a
    backend that is not the harness one, an entry listed under the prefix
    given to [List], with a plain path below it, is fetched from its own
    path: that path is the source given to [Get], and the path below the
    prefix is the destination given to [Extract]. *)
Theorem discovered_entry_fetched_from_its_path (h : Host) (r : restorer)
    (fs : files) (sched : list choice) (o : outcome) (key : string)
    (entries : list FileEntry) (i : nat) (e : FileEntry) (rest : string) :
  GOOS h <> "windows" ->
  enableCacheKeySeparator r = true ->
  backend r <> "harness" ->
  generateKey r [] = Ret (key, None) ->
  filepath.Join (GOOS h) [cleaned_namespace h r; key] <> "." ->
  List (s r) (list_prefix h r (cleaned_namespace h r) key) = (entries, None) ->
  entries !! i = Some e ->
  Path e = list_prefix h r (cleaned_namespace h r) key +:+ rest ->
  plain (GOOS h) rest = true ->
  Restore h r [] fs sched = Some o ->
  out_tasks o !! i
  = Some {| g_src := Path e; g_dst := rest; g_at := Finished |}
  /\ EvGet i (Path e) ∈ out_trace o
  /\ EvExtract i rest ∈ out_trace o.
Proof.
  intros Hos Hsep Hbackend Hkey Hdot HList Hi Hpath Hplain Hret.
  assert (Restore_plan h r []
          = ([EvList (list_prefix h r (cleaned_namespace h r) key)],
             FanOut (cleaned_namespace h r) key
               (discovered h r (list_prefix h r (cleaned_namespace h r) key)
                  <$> entries))) as Hplan.
  { unfold Restore_plan. rewrite Hkey, HList.
    destruct entries; [done |]. simpl. by rewrite andb_false_r. }
  assert (discovered h r (list_prefix h r (cleaned_namespace h r) key) e
          = rest) as Hdst.
  { unfold discovered, trimmed_prefix.
    apply String.eqb_neq in Hbackend. rewrite Hbackend, Hsep, Hpath.
    apply TrimPrefix_app. }
  assert ((discovered h r (list_prefix h r (cleaned_namespace h r) key)
             <$> entries) !! i = Some rest) as Hi'
    by (by rewrite list_lookup_fmap, Hi, <- Hdst).
  destruct (target_task _ _ _ _ _ _ _ _ _ _ _ _ Hplan Hret Hi')
    as (Htask & _ & Hget & Hextract).
  assert (filepath.Join (GOOS h) [cleaned_namespace h r; key; rest] = Path e)
    as Hsrc.
  { apply String.eqb_neq in Hos as Hw.
    rewrite Hpath, (Join_under (GOOS h) Hw); [| | done | done].
    - unfold list_prefix, getSeparator. rewrite Hw, Hsep, andb_true_r.
      by destruct (strings.HasSuffix _ "/").
    - unfold cleaned_namespace, filepath.ToSlash.
      rewrite (Separator_slash (GOOS h) Hw). apply Clean_not_empty. }
  rewrite Hsrc in Htask, Hget. done.
Qed.

Lemma discovered_entry_fetched_from_its_path_witness :
  exists o,
    Restore Examples.linux (Examples.restorer_on (Examples.bucket Examples.objects))
      [] ∅ (all_at_once 2) = Some o
    /\ EvGet 1 "repo/k/b" ∈ out_trace o
    /\ EvExtract 1 "b" ∈ out_trace o.
Proof.
  eexists. split; [vm_compute; reflexivity |].
  exact (proj2 (discovered_entry_fetched_from_its_path Examples.linux
           (Examples.restorer_on (Examples.bucket Examples.objects))
           ∅ (all_at_once 2) _ "k" (Examples.entry_of <$> Examples.objects)
           1 (Examples.entry_of ("repo/k/b", "yy")) "b"
           ltac:(discriminate) eq_refl ltac:(discriminate) eq_refl
           ltac:(discriminate) eq_refl eq_refl eq_refl eq_refl eq_refl)).
Defined.

(** ** More on a single destination *)



(** A listed entry whose path does not start with the trimmed prefix is
    not skipped: its whole path is the destination of a goroutine, and
    the source is the join of the namespace, the key and that path. *)
Theorem Restore_entry_outside_prefix (h : Host) (r : restorer) (fs : files)
    (sched : list choice) (o : outcome) (key : string)
    (entries : list FileEntry) (i : nat) (e : FileEntry) :
  generateKey r [] = Ret (key, None) ->
  List (s r) (list_prefix h r (cleaned_namespace h r) key) = (entries, None) ->
  entries !! i = Some e ->
  strings.HasPrefix (Path e)
    (trimmed_prefix h r (list_prefix h r (cleaned_namespace h r) key))
  = false ->
  Restore h r [] fs sched = Some o ->
  out_tasks o !! i
  = Some (finished_task h (cleaned_namespace h r) key (Path e))
  /\ EvExtract i (Path e) ∈ out_trace o.
Proof.
  intros Hkey HList Hi Hout Hret.
  assert (Restore_plan h r []
          = ([EvList (list_prefix h r (cleaned_namespace h r) key)],
             FanOut (cleaned_namespace h r) key
               (discovered h r (list_prefix h r (cleaned_namespace h r) key)
                  <$> entries))) as Hplan.
  { unfold Restore_plan. rewrite Hkey, HList.
    destruct entries; [done |]. simpl. by rewrite andb_false_r. }
  assert ((discovered h r (list_prefix h r (cleaned_namespace h r) key)
             <$> entries) !! i = Some (Path e)) as Hi'.
  { rewrite list_lookup_fmap, Hi. simpl.
    unfold discovered, strings.TrimPrefix. by rewrite Hout. }
  destruct (target_task _ _ _ _ _ _ _ _ _ _ _ _ Hplan Hret Hi')
    as (Htask & _ & _ & Hextract).
  by split.
Qed.

Lemma Restore_entry_outside_prefix_witness :
  let r := NewRestorer
             (Examples.bucket [("repo/k/a", "x"); ("repo/k2/a", "yy")])
             Examples.plain (Some (Examples.fixed_key "k")) None
             "repo" false false "" "" in
  exists o,
    Restore Examples.linux r [] ∅ (all_at_once 2) = Some o
    /\ EvList "repo/k" ∈ out_trace o
    /\ out_tasks o !! 1
       = Some {| g_src := "repo/k/repo/k2/a"; g_dst := "repo/k2/a";
                 g_at := Finished |}.
Proof.
  eexists. split; [vm_compute; reflexivity |].
  split; [apply list_elem_of_here |].
  exact (proj1 (Restore_entry_outside_prefix Examples.linux
           (NewRestorer
              (Examples.bucket [("repo/k/a", "x"); ("repo/k2/a", "yy")])
              Examples.plain (Some (Examples.fixed_key "k")) None
              "repo" false false "" "")
           ∅ (all_at_once 2) _ "k"
           (Examples.entry_of <$> [("repo/k/a", "x"); ("repo/k2/a", "yy")])
           1 (Examples.entry_of ("repo/k2/a", "yy"))
           eq_refl eq_refl eq_refl eq_refl eq_refl)).
Defined.

(** Without a primary generator [Restore] panics, before it calls the
    store or the archive. *)
Theorem Restore_nil_primary_panics (h : Host) (r : restorer)
    (dsts : list string) (fs : files) (sched : list choice) :
  g r = None ->
  Restore h r dsts fs sched
  = Some {| result := Panic nil_dereference; out_tasks := [];
            out_files := fs; out_trace := [] |}.
Proof.
  intros Hg. unfold Restore, Restore_plan, generateKey. by rewrite Hg.
Qed.

Lemma Restore_nil_primary_panics_witness :
  result <$>
    Restore Examples.linux
      (NewRestorer (Examples.bucket Examples.objects) Examples.plain
         None (Some (Examples.fixed_key "k")) "repo" false true "" "")
      ["a"] ∅ (all_at_once 1)
  = Some (Panic nil_dereference).
Proof.
  by rewrite (Restore_nil_primary_panics Examples.linux
    (NewRestorer (Examples.bucket Examples.objects) Examples.plain
       None (Some (Examples.fixed_key "k")) "repo" false true "" "")
    ["a"] ∅ (all_at_once 1) eq_refl).
Defined.
